(** * Input x Gradient attribution (captum/attr/_core/input_x_gradient.py)

  A shallow embedding of [InputXGradient.attribute] and of the
  collaborators it calls, followed by the properties of the call:
  what it returns, what it does to the caller's tensors, in which
  order it invokes its collaborators and how failures surface.

  Python objects with identity (tensors) live in a heap and are
  passed around as references, so that a tensor appearing twice in
  [inputs] is one shared object.  A computation is a function from
  the program state to a new state and either a value or a raised
  exception; the state a raising computation leaves behind is kept,
  as in Python. *)

From Stdlib Require Import ZArith Bool Lia String.
From Stdlib Require Import Floats.SpecFloat.
From stdpp Require Import base option list.

(** ** Tensor values: torch's elementwise product with broadcasting *)

Section TensorValues.
Context {elt : Type}.
Variable emul : elt → elt → elt.

(** Number of elements of a tensor of shape [s]. *)
Definition numel (s : list nat) : nat := foldr Nat.mul 1 s.

(** Two sizes along one dimension are compatible when they are equal
    or one of them is 1. *)
Definition broadcast_dim (d1 d2 : nat) : option nat :=
  if d1 =? d2 then Some d1
  else if d1 =? 1 then Some d2
  else if d2 =? 1 then Some d1
  else None.

(** Shapes are aligned at their last dimension; the fixpoint runs on
    reversed shapes. *)
Fixpoint broadcast_rev (s1 s2 : list nat) : option (list nat) :=
  match s1, s2 with
  | [], s => Some s
  | s, [] => Some s
  | d1 :: r1, d2 :: r2 =>
      match broadcast_dim d1 d2, broadcast_rev r1 r2 with
      | Some d, Some r => Some (d :: r)
      | _, _ => None
      end
  end.

Definition broadcast_shapes (s1 s2 : list nat) : option (list nat) :=
  reverse <$> broadcast_rev (reverse s1) (reverse s2).

(** A shape padded on the left with 1s up to rank [n]. *)
Definition pad_shape (n : nat) (s : list nat) : list nat :=
  replicate (n - length s) 1 ++ s.

(** [k] consecutive chunks of [n] elements each. *)
Fixpoint chunks {A} (n k : nat) (l : list A) : list (list A) :=
  match k with
  | 0 => []
  | S k' => take n l :: chunks n k' (drop n l)
  end.

(** Row-major data of shape [s] expanded to shape [o]: a dimension
    of size 1 is repeated, any other is kept. *)
Fixpoint expand (s o : list nat) (l : list elt) : list elt :=
  match s, o with
  | d :: s', e :: o' =>
      let parts := concat (map (expand s' o') (chunks (numel s') d l)) in
      if d =? e then parts else concat (replicate e parts)
  | _, _ => l
  end.

(** [a * b] on tensor values; [None] when the shapes cannot be
    broadcast together (torch raises a RuntimeError). *)
Definition tensor_product (sa : list nat) (da : list elt)
                          (sb : list nat) (db : list elt)
  : option (list nat * list elt) :=
  o ← broadcast_shapes sa sb;
  let n := length o in
  Some (o, zip_with emul (expand (pad_shape n sa) o da)
                         (expand (pad_shape n sb) o db)).
End TensorValues.

Arguments chunks {A} n k l.

(** ** Python exceptions *)

Record exn := Exn { exn_class : string; exn_msg : string }.

Definition AssertionError (msg : string) : exn := Exn "AssertionError" msg.
Definition RuntimeError (msg : string) : exn := Exn "RuntimeError" msg.
(** A reference that names no object: cannot happen in Python, kept as
  an error so that no model function is silently wrong on it. *)
Definition DanglingReference : exn := Exn "ReferenceError" "no such object".

Inductive outcome (A : Type) : Type :=
| Ok (a : A)
| Raise (e : exn).
Arguments Ok {A} a.
Arguments Raise {A} e.

(** References to heap objects. *)
Abbreviation loc := nat (only parsing).

(** ** The engine *)

Section Engine.
Context {elt : Type}.
Variable emul : elt → elt → elt.
(** torch's grad mode at the call ([torch.is_grad_enabled()]): on by
    default, off inside [torch.no_grad()]. *)
Variable grad_enabled : bool.
(** Opaque Python values: the forward function, the target
    specification and the additional forward arguments. *)
Context {Forward Target Args : Type}.

(** *** Heap of tensor objects *)

Record tensor := Tensor {
  shape : list nat;
  elems : list elt;
  requires_grad : bool
}.

Local Abbreviation heap := (list tensor) (only parsing).

Definition with_requires_grad (b : bool) (t : tensor) : tensor :=
  {| shape := shape t; elems := elems t; requires_grad := b |}.

(** Differentiability flag of the object at [l], if any. *)
Definition flag (h : heap) (l : loc) : option bool :=
  requires_grad <$> h !! l.

(** *** Calling conventions *)

(** [inputs]: a tensor, or a tuple of tensors. *)
Inductive pyinputs :=
| PyTensor (t : loc)
| PyTuple (ts : list loc).

(** What [attribute] returns: a tensor, or a tuple of tensors. *)
Inductive pyresult :=
| ResTensor (t : loc)
| ResTuple (ts : list loc).

(** [isinstance(inputs, tuple)] *)
Definition isinstance_tuple (inputs : pyinputs) : bool :=
  match inputs with
  | PyTensor _ => false
  | PyTuple _ => true
  end.

(** *** Observable calls

    Every call to a collaborator is recorded, in order, in a ghost
    trace.  The gradient capability's record holds the arguments it
    was called with and the heap it was called on. *)
Inductive event :=
| EvFormatInput (inputs : pyinputs)
| EvApplyGradientRequirements (inputs : list loc)
| EvGradientFunc (forward_func : Forward) (inputs : list loc)
                 (target : Target) (additional_forward_args : Args)
                 (h : heap)
| EvMul (input gradient : loc)
| EvUndoGradientRequirements (inputs : list loc) (mask : list bool)
| EvFormatAttributions (is_inputs_tuple : bool) (attributions : list loc).

Record state := State {
  st_heap : heap;
  st_trace : list event
}.

(** *** Computations: state passing with exceptions *)

Definition M (A : Type) : Type := state → state * outcome A.

Definition ret {A} (a : A) : M A := λ s, (s, Ok a).

Definition raise {A} (e : exn) : M A := λ s, (s, Raise e).

Definition bind {A B} (m : M A) (k : A → M B) : M B :=
  λ s, match m s with
       | (s', Ok a) => k a s'
       | (s', Raise e) => (s', Raise e)
       end.

Notation "x <- m ;; k" := (bind m (λ x, k))
  (at level 100, m at next level, right associativity).

Definition emit (e : event) : M unit :=
  λ s, (State (st_heap s) (st_trace s ++ [e]), Ok tt).

Definition deref (l : loc) : M tensor :=
  λ s, match st_heap s !! l with
       | Some t => (s, Ok t)
       | None => (s, Raise DanglingReference)
       end.

(** [t.requires_grad_(b)]: in place, on the shared object. *)
Definition set_requires_grad (l : loc) (b : bool) : M unit :=
  t <- deref l ;;
  λ s, (State (<[l := with_requires_grad b t]> (st_heap s)) (st_trace s),
        Ok tt).

(** A new tensor object; its reference is returned. *)
Definition alloc (t : tensor) : M loc :=
  λ s, (State (st_heap s ++ [t]) (st_trace s), Ok (length (st_heap s))).

(** [tuple(f(x) for x in it)] *)
Fixpoint tuple_of {A B} (f : A → M B) (it : list A) : M (list B) :=
  match it with
  | [] => ret []
  | x :: rest =>
      y <- f x ;;
      ys <- tuple_of f rest ;;
      ret (y :: ys)
  end.

(** *** torch: [input * gradient]

    A new tensor holding the broadcast elementwise product; it is
    tracked for differentiation when grad mode is on and one of the
    operands is tracked. *)
Definition tensor_mul (input gradient : loc) : M loc :=
  _ <- emit (EvMul input gradient) ;;
  a <- deref input ;;
  b <- deref gradient ;;
  match tensor_product emul (shape a) (elems a) (shape b) (elems b) with
  | Some (s, d) =>
    alloc (Tensor s d (grad_enabled && (requires_grad a || requires_grad b)))
  | None => raise (RuntimeError "The size of tensor a must match the size of tensor b")
  end.

(** *** Collaborators of this repository outside the source file *)

(** Modelled from the spec: [format_input] of [_utils/common.py] is
    missing.  "Normalize inputs into an Input Collection (wrap a bare
    tensor into a one-element sequence; pass a tuple through
    unchanged)." *)
Definition format_input (inputs : pyinputs) : M (list loc) :=
  _ <- emit (EvFormatInput inputs) ;;
  ret match inputs with
      | PyTensor t => [t]
      | PyTuple ts => ts
      end.

(** Modelled from the spec: [_format_attributions] of
    [_utils/common.py] is missing.  "If is_inputs_tuple is false,
    return the single element; otherwise return the full ordered
    sequence."  Without a single element there is nothing to return
    and the helper fails. *)
Definition _format_attributions (is_inputs_tuple : bool)
           (attributions : list loc) : M pyresult :=
  _ <- emit (EvFormatAttributions is_inputs_tuple attributions) ;;
  if is_inputs_tuple then ret (ResTuple attributions)
  else match attributions with
       | [a] => ret (ResTensor a)
       | _ => raise (AssertionError "The input is a single tensor however the attributions aren't")
       end.

(** Modelled from the spec: the loop of [apply_gradient_requirements],
    missing with it.  For each tensor in turn: read the flag, force
    tracking on, go on with the rest. *)
Fixpoint require_each (inputs : list loc) : M (list bool) :=
  match inputs with
  | [] => ret []
  | input :: rest =>
      t <- deref input ;;
      _ <- set_requires_grad input true ;;
      mask <- require_each rest ;;
      ret (requires_grad t :: mask)
  end.

(** Modelled from the spec: [apply_gradient_requirements] of
    [_utils/gradient.py] is missing.  "For each tensor in the Input
    Collection, capture its current Differentiability Flag, then
    force differentiability tracking on, producing a
    Differentiability Flag mask to undo later." *)
Definition apply_gradient_requirements (inputs : list loc) : M (list bool) :=
  _ <- emit (EvApplyGradientRequirements inputs) ;;
  require_each inputs.

(** Modelled from the spec: the loop of [undo_gradient_requirements],
    missing with it.  For each tensor and the flag recorded for it, in
    turn: reset the flag off when it was recorded off. *)
Fixpoint restore_each (pairs : list (loc * bool)) : M unit :=
  match pairs with
  | [] => ret tt
  | (input, was_required) :: rest =>
      _ <- (if was_required then ret tt
            else set_requires_grad input false) ;;
      restore_each rest
  end.

(** Modelled from the spec: [undo_gradient_requirements] of
    [_utils/gradient.py] is missing.  "Restore each tensor's
    Differentiability Flag to its pre-call value using the mask
    captured in step 2 (only flags that were forced on and previously
    off are reset off; previously-on flags remain on)." *)
Definition undo_gradient_requirements (inputs : list loc)
           (grad_required : list bool) : M unit :=
  _ <- emit (EvUndoGradientRequirements inputs grad_required) ;;
  restore_each (zip inputs grad_required).

(** *** The attribution object

    [forward_func] is stored by [__init__]; [gradient_func] is the
    gradient capability the base class installs.  The capability is
    external: it is any function of its four arguments and the heap,
    returning a heap and gradients or an exception. *)
Record InputXGradient := {
  forward_func : Forward;
  gradient_func : Forward → list loc → Target → Args →
                  heap → heap * outcome (list loc)
}.

(** [self.gradient_func(forward_func, inputs, target, args)] *)
Definition call_gradient_func (self : InputXGradient) (f : Forward)
           (inputs : list loc) (target : Target) (args : Args)
  : M (list loc) :=
  λ s,
    let tr := st_trace s ++ [EvGradientFunc f inputs target args (st_heap s)] in
    let '(h', r) := gradient_func self f inputs target args (st_heap s) in
    (State h' tr, r).

(** [InputXGradient.attribute] *)
Definition attribute (self : InputXGradient) (inputs : pyinputs)
           (target : Target) (additional_forward_args : Args)
  : M pyresult :=
  let is_inputs_tuple := isinstance_tuple inputs in
  inputs <- format_input inputs ;;
  gradient_mask <- apply_gradient_requirements inputs ;;
  gradients <- call_gradient_func self (forward_func self) inputs
                 target additional_forward_args ;;
  attributions <- tuple_of (λ '(input, gradient), tensor_mul input gradient)
                    (zip inputs gradients) ;;
  _ <- undo_gradient_requirements inputs gradient_mask ;;
  _format_attributions is_inputs_tuple attributions.

End Engine.

Arguments tensor elt : clear implicits.
Abbreviation heap elt := (list (tensor elt)) (only parsing).
Arguments event elt Forward Target Args : clear implicits.
Arguments state elt Forward Target Args : clear implicits.
Arguments InputXGradient elt Forward Target Args : clear implicits.

(** ** Gradient capabilities used in the examples *)

Section Mocks.
Context {elt Forward Target Args : Type}.

(** Returns the fixed gradient tensors [gs], as new objects. *)
Definition constant_gradients (gs : list (tensor elt))
  : Forward → list loc → Target → Args →
    heap elt → heap elt * outcome (list loc) :=
  λ _ _ _ _ h, (h ++ gs, Ok (seq (length h) (length gs))).

(** Fails with [e], leaving the heap alone. *)
Definition raising_gradients (e : exn)
  : Forward → list loc → Target → Args →
    heap elt → heap elt * outcome (list loc) :=
  λ _ _ _ _ h, (h, Raise e).
End Mocks.

(** ** Vocabulary of the statements *)

Section Vocabulary.
Context {elt Forward Target Args : Type}.
Variable emul : elt → elt → elt.
Variable grad_enabled : bool.

(** The tensors of [inputs], in order. *)
Definition inputs_list (inputs : pyinputs) : list loc :=
  match inputs with
  | PyTensor t => [t]
  | PyTuple ts => ts
  end.

(** The tensors of a result, in order. *)
Definition result_list (r : pyresult) : list loc :=
  match r with
  | ResTensor t => [t]
  | ResTuple ts => ts
  end.

Definition result_is_tuple (r : pyresult) : bool :=
  match r with
  | ResTensor _ => false
  | ResTuple _ => true
  end.

(** Every reference of [ls] names an object of [h]. *)
Definition valid_refs (h : heap elt) (ls : list loc) : Prop :=
  Forall (λ l, l < length h) ls.

(** The heap after [l.requires_grad_(b)]. *)
Definition set_flag (b : bool) (l : loc) (h : heap elt) : heap elt :=
  alter (with_requires_grad b) l h.

(** The heap after tracking was forced on for [ls], one by one. *)
Fixpoint force_on (ls : list loc) (h : heap elt) : heap elt :=
  match ls with
  | [] => h
  | l :: rest => force_on rest (set_flag true l h)
  end.

(** The flags read along the way: a tensor met a second time is seen
    with its flag already on. *)
Fixpoint captured_mask (ls : list loc) (h : heap elt) : list bool :=
  match ls with
  | [] => []
  | l :: rest =>
      default false (flag h l) :: captured_mask rest (set_flag true l h)
  end.

(** The heap after the flags recorded as off were reset off. *)
Fixpoint reset_off (pairs : list (loc * bool)) (h : heap elt) : heap elt :=
  match pairs with
  | [] => h
  | (l, was_required) :: rest =>
      reset_off rest (if was_required then h else set_flag false l h)
  end.

(** The tensor [input * gradient] produces on heap [h], when it does. *)
Definition product_at (h : heap elt) (p : loc * loc) : option (tensor elt) :=
  a ← h !! p.1;
  b ← h !! p.2;
  sd ← tensor_product emul (shape a) (elems a) (shape b) (elems b);
  Some (Tensor sd.1 sd.2
          (grad_enabled && (requires_grad a || requires_grad b))).

(** A tensor holds as many elements as its shape says. *)
Definition well_formed (t : tensor elt) : Prop :=
  length (elems t) = numel (shape t).

(** The gradient capability leaves every existing object as it is; it
    may create new ones. *)
Definition preserves_objects (self : InputXGradient elt Forward Target Args)
  : Prop :=
  ∀ f ins t a h h' r,
    gradient_func self f ins t a h = (h', r) → h `prefix_of` h'.

(** The six steps of a call, and the step each recorded call belongs to. *)
Inductive stage :=
| Normalize
| EnableGrad
| ComputeGradient
| Multiply
| RestoreGrad
| Denormalize.

Definition stage_of (e : event elt Forward Target Args) : stage :=
  match e with
  | EvFormatInput _ => Normalize
  | EvApplyGradientRequirements _ => EnableGrad
  | EvGradientFunc _ _ _ _ _ => ComputeGradient
  | EvMul _ _ => Multiply
  | EvUndoGradientRequirements _ _ => RestoreGrad
  | EvFormatAttributions _ _ => Denormalize
  end.

(** The events of a call that reaches its last step. *)
Definition events_of_call (self : InputXGradient elt Forward Target Args) inputs target args
    (h0 : heap elt) (gs : list loc) (attrs : list loc)
  : list (event elt Forward Target Args) :=
  let ins := inputs_list inputs in
  [EvFormatInput inputs; EvApplyGradientRequirements ins;
   EvGradientFunc (forward_func self) ins target args (force_on ins h0)]
  ++ (uncurry EvMul <$> zip ins gs)
  ++ [EvUndoGradientRequirements ins (captured_mask ins h0);
      EvFormatAttributions (isinstance_tuple inputs) attrs].

(** The pipeline of a call that multiplies [n] pairs. *)
Definition pipeline (n : nat) : list stage :=
  [Normalize; EnableGrad; ComputeGradient] ++ replicate n Multiply
    ++ [RestoreGrad; Denormalize].
End Vocabulary.

Arguments stage_of {elt Forward Target Args} e.
Arguments valid_refs {elt} h ls.

(** ** Which step of a call raised *)

Section Steps.
Context {elt Forward Target Args : Type}.
Variable emul : elt → elt → elt.
Variable grad_enabled : bool.
Variable self : InputXGradient elt Forward Target Args.
Variables (inputs : pyinputs) (target : Target) (args : Args).

(** [step_raises s s' e]: started in [s], the steps of the call ran
    normally up to one collaborator, which raised [e] leaving [s']. *)
Inductive step_raises (s : state elt Forward Target Args)
  : state elt Forward Target Args → exn → Prop :=
| format_input_raises s' e :
    format_input inputs s = (s', Raise e) →
    step_raises s s' e
| apply_gradient_requirements_raises s1 ins s' e :
    format_input inputs s = (s1, Ok ins) →
    apply_gradient_requirements ins s1 = (s', Raise e) →
    step_raises s s' e
| gradient_func_raises s1 ins s2 mask h3 e :
    format_input inputs s = (s1, Ok ins) →
    apply_gradient_requirements ins s1 = (s2, Ok mask) →
    gradient_func self (forward_func self) ins target args (st_heap s2)
      = (h3, Raise e) →
    step_raises s
      (State h3 (st_trace s2
                   ++ [EvGradientFunc (forward_func self) ins target args
                         (st_heap s2)])) e
| multiplication_raises s1 ins s2 mask s3 gs s' e :
    format_input inputs s = (s1, Ok ins) →
    apply_gradient_requirements ins s1 = (s2, Ok mask) →
    call_gradient_func self (forward_func self) ins target args s2
      = (s3, Ok gs) →
    tuple_of (λ '(input, gradient), tensor_mul emul grad_enabled input gradient)
      (zip ins gs) s3 = (s', Raise e) →
    step_raises s s' e
| undo_gradient_requirements_raises s1 ins s2 mask s3 gs s4 attrs s' e :
    format_input inputs s = (s1, Ok ins) →
    apply_gradient_requirements ins s1 = (s2, Ok mask) →
    call_gradient_func self (forward_func self) ins target args s2
      = (s3, Ok gs) →
    tuple_of (λ '(input, gradient), tensor_mul emul grad_enabled input gradient)
      (zip ins gs) s3 = (s4, Ok attrs) →
    undo_gradient_requirements ins mask s4 = (s', Raise e) →
    step_raises s s' e
| format_attributions_raises s1 ins s2 mask s3 gs s4 attrs s5 u s' e :
    format_input inputs s = (s1, Ok ins) →
    apply_gradient_requirements ins s1 = (s2, Ok mask) →
    call_gradient_func self (forward_func self) ins target args s2
      = (s3, Ok gs) →
    tuple_of (λ '(input, gradient), tensor_mul emul grad_enabled input gradient)
      (zip ins gs) s3 = (s4, Ok attrs) →
    undo_gradient_requirements ins mask s4 = (s5, Ok u) →
    _format_attributions (isinstance_tuple inputs) attrs s5 = (s', Raise e) →
    step_raises s s' e.
End Steps.

(** ** IEEE 754 elements *)

Module IEEE754.
Definition is_zero (x : spec_float) : bool :=
  match x with
  | S754_zero _ => true
  | _ => false
  end.

(** Neither an infinity nor a NaN. *)
Definition is_finite (x : spec_float) : bool :=
  match x with
  | S754_zero _ | S754_finite _ _ _ => true
  | _ => false
  end.
End IEEE754.

(** torch.float32 *)
Module Float32.
Definition f32 : Type := spec_float.
Definition prec : Z := 24.
Definition emax : Z := 128.
Definition mul : f32 → f32 → f32 := SFmul prec emax.
Definition of_Z (z : Z) : f32 := binary_normalize prec emax z 0 false.
Definition inf : f32 := S754_infinity false.
Definition nan : f32 := S754_nan.
End Float32.

(** ** Concrete calls *)

Module Examples.
Import Float32.

(** A batch of one vector. *)
Definition row (zs : list Z) (tracked : bool) : tensor f32 :=
  Tensor [1; length zs] (of_Z <$> zs) tracked.

Definition x123 : tensor f32 := row [1; 2; 3]%Z false.
Definition y45 : tensor f32 := row [4; 5]%Z true.
Definition ones3 : tensor f32 := row [1; 1; 1]%Z false.
Definition x_inf : tensor f32 := Tensor [1] [inf] false.
Definition zero1 : tensor f32 := Tensor [1] [of_Z 0] false.

Definition engine gf : InputXGradient f32 string (option nat) (list Z) :=
  {| forward_func := "sum"%string; gradient_func := gf |}.

(** The gradient of [sum] at [x123]. *)
Definition sum_engine := engine (constant_gradients [ones3]).
(** A capability that returns a zero gradient. *)
Definition zero_engine := engine (constant_gradients [zero1]).
(** A capability that returns no gradient at all. *)
Definition empty_engine := engine (constant_gradients []).
(** A capability that fails. *)
Definition no_target : exn := RuntimeError "target is required".
Definition failing_engine := engine (raising_gradients no_target).

(** A capability that returns zeros for [x123]. *)
Definition zeros3 : tensor f32 := row [0; 0; 0]%Z false.
Definition flat_engine := engine (constant_gradients [zeros3]).
(** A capability that returns two gradients. *)
Definition pair_engine := engine (constant_gradients [ones3; ones3]).

Definition start (h : heap f32)
  : state f32 string (option nat) (list Z) := State h [].

(** The example of the documentation: [sum] at [[1, 2, 3]], class 4. *)
Definition sum_call :=
  attribute mul true sum_engine (PyTensor 0) (Some 4) [7%Z] (start [x123]).
(** The same tensor given twice. *)
Definition shared_call :=
  attribute mul true pair_engine (PyTuple [0; 0]) None [] (start [x123]).
(** The capability fails. *)
Definition failing_call :=
  attribute mul true failing_engine (PyTensor 0) None [] (start [x123]).
(** Two inputs, one gradient. *)
Definition short_call :=
  attribute mul true sum_engine (PyTuple [0; 1]) None [] (start [x123; y45]).
(** One input, no gradient. *)
Definition empty_call :=
  attribute mul true empty_engine (PyTensor 0) None [] (start [x123]).
(** A zero gradient for a finite input, and for an infinite one. *)
Definition flat_call :=
  attribute mul true flat_engine (PyTensor 0) None [] (start [x123]).
Definition nan_call :=
  attribute mul true zero_engine (PyTensor 0) None [] (start [x_inf]).
End Examples.

(** ** Vocabulary of the further properties *)

Section MoreVocabulary.
Context {elt Forward Target Args : Type}.

(** Two runs that end on the same heap with the same outcome; the
    recorded traces may differ. *)
Definition same_run {A} (r1 r2 : state elt Forward Target Args * outcome A)
  : Prop :=
  st_heap r1.1 = st_heap r2.1 ∧ r1.2 = r2.2.

(** A computation whose heap and outcome do not depend on the trace
    recorded so far. *)
Definition ignores_trace {A} (m : @M elt Forward Target Args A) : Prop :=
  ∀ s1 s2, st_heap s1 = st_heap s2 → same_run (m s1) (m s2).

(** [h'] holds every object of [h], with its shape and elements; a flag
    differs only on a tensor of [ls], and then it is on. *)
Definition only_flags_forced (ls : list loc) (h h' : heap elt) : Prop :=
  ∀ l t, h !! l = Some t →
    ∃ t', h' !! l = Some t'
          ∧ shape t' = shape t ∧ elems t' = elems t
          ∧ (requires_grad t' = requires_grad t
             ∨ l ∈ ls ∧ requires_grad t' = true).

(** The attribution object whose gradient capability returns, after the
    gradients of [self], the references [surplus]. *)
Definition with_surplus (surplus : list loc)
    (self : InputXGradient elt Forward Target Args)
  : InputXGradient elt Forward Target Args :=
  {| forward_func := forward_func self;
     gradient_func := λ f ins t a h,
       let '(h', r) := gradient_func self f ins t a h in
       (h', match r with
            | Ok gs => Ok (gs ++ surplus)
            | Raise e => Raise e
            end) |}.
End MoreVocabulary.

Module MoreExamples.
Import Float32 Examples.

(** A capability that returns a gradient of two elements for [x123]. *)
Definition misshapen_engine := engine (constant_gradients [y45]).
Definition misshapen_call :=
  attribute mul true misshapen_engine (PyTensor 0) None [] (start [x123]).

(** An input that is tracked before the call, and a failing capability. *)
Definition tracked_failing_call :=
  attribute mul true failing_engine (PyTensor 0) None [] (start [y45]).

(** The example of the documentation, the input given as a one-element
    tuple. *)
Definition sum_tuple_call :=
  attribute mul true sum_engine (PyTuple [0]) (Some 4) [7%Z] (start [x123]).

(** The gradient of [sum], followed by a reference to nothing. *)
Definition surplus_engine := with_surplus [99] sum_engine.
End MoreExamples.

(** ** Facts on tensor values *)

Section TensorFacts.
Context {elt : Type} (emul : elt → elt → elt).

Lemma broadcast_dim_same d : broadcast_dim d d = Some d.
Proof. unfold broadcast_dim. by rewrite Nat.eqb_refl. Qed.

Lemma broadcast_rev_same s : broadcast_rev s s = Some s.
Proof.
  induction s as [|d s IH]; [done|].
  simpl. by rewrite broadcast_dim_same, IH.
Qed.

Lemma broadcast_shapes_same s : broadcast_shapes s s = Some s.
Proof.
  unfold broadcast_shapes. rewrite broadcast_rev_same. simpl.
  by rewrite reverse_involutive.
Qed.

Lemma pad_shape_same s : pad_shape (length s) s = s.
Proof. unfold pad_shape. by rewrite Nat.sub_diag. Qed.

Lemma concat_chunks {A} n k (l : list A) :
  length l = k * n → concat (chunks n k l) = l.
Proof.
  revert l. induction k as [|k IH]; intros l Hl; simpl in *.
  - by destruct l.
  - rewrite IH; [apply take_drop|]. rewrite length_drop. lia.
Qed.

Lemma chunks_sizes {A} n k (l : list A) :
  length l = k * n → Forall (λ c, length c = n) (chunks n k l).
Proof.
  revert l. induction k as [|k IH]; intros l Hl; simpl in *; [constructor|].
  constructor.
  - rewrite length_take. lia.
  - apply IH. rewrite length_drop. lia.
Qed.

(** Expanding to the shape a tensor already has changes nothing. *)
Lemma expand_same s (l : list elt) :
  length l = numel s → expand s s l = l.
Proof.
  revert l. induction s as [|d s IH]; intros l Hl; [done|].
  simpl in *. rewrite Nat.eqb_refl.
  rewrite <- (concat_chunks (numel s) d l) at 2 by done.
  f_equal. rewrite <- (list_fmap_id (chunks _ _ _)) at 2.
  apply Forall_fmap_ext_1.
  eapply Forall_impl; [by apply chunks_sizes|].
  intros c Hc. by apply IH.
Qed.

(** On operands of one shape the product is the elementwise one. *)
Lemma tensor_product_same_shape s (da db : list elt) :
  length da = numel s → length db = numel s →
  tensor_product emul s da s db = Some (s, zip_with emul da db).
Proof.
  intros Ha Hb. unfold tensor_product.
  rewrite broadcast_shapes_same. simpl.
  by rewrite pad_shape_same, !expand_same.
Qed.

(** Whatever the data, operands of one shape give that shape. *)
Lemma tensor_product_shape s (da db : list elt) :
  ∃ d, tensor_product emul s da s db = Some (s, d).
Proof.
  unfold tensor_product. rewrite broadcast_shapes_same. simpl. eauto.
Qed.
End TensorFacts.

(** ** Facts on computations and on the collaborators *)

Section EngineFacts.
Context {elt Forward Target Args : Type}.
Variable emul : elt → elt → elt.
Variable grad_enabled : bool.

Local Abbreviation state := (state elt Forward Target Args).
Local Abbreviation M := (@M elt Forward Target Args).

Lemma bind_ok {A B} (m : M A) (k : A → M B) s s1 a :
  m s = (s1, Ok a) → bind m k s = k a s1.
Proof. intros H. unfold bind. by rewrite H. Qed.

Lemma bind_raise {A B} (m : M A) (k : A → M B) s s1 e :
  m s = (s1, Raise e) → bind m k s = (s1, Raise e).
Proof. intros H. unfold bind. by rewrite H. Qed.

(** A bind returns normally only when both parts do. *)
Lemma bind_ok_inv {A B} (m : M A) (k : A → M B) s s' b :
  bind m k s = (s', Ok b) →
  ∃ s1 a, m s = (s1, Ok a) ∧ k a s1 = (s', Ok b).
Proof.
  unfold bind. destruct (m s) as [s1 [a|e]]; [eauto|done].
Qed.

(** A bind raises what its first part raised, or else what the second did. *)
Lemma bind_raise_inv {A B} (m : M A) (k : A → M B) s s' e :
  bind m k s = (s', Raise e) →
  m s = (s', Raise e) ∨ ∃ s1 a, m s = (s1, Ok a) ∧ k a s1 = (s', Raise e).
Proof.
  unfold bind. destruct (m s) as [s1 [a|e']]; [eauto|].
  intros [= -> ->]. by left.
Qed.

Lemma with_requires_grad_twice b b' (t : tensor elt) :
  with_requires_grad b (with_requires_grad b' t) = with_requires_grad b t.
Proof. done. Qed.

Lemma with_requires_grad_same (t : tensor elt) :
  with_requires_grad (requires_grad t) t = t.
Proof. by destruct t. Qed.

Lemma set_flag_length b l (h : heap elt) : length (set_flag b l h) = length h.
Proof. apply length_alter. Qed.

Lemma set_flag_lookup b l (h : heap elt) j :
  set_flag b l h !! j
  = if decide (l = j) then with_requires_grad b <$> h !! j else h !! j.
Proof.
  unfold set_flag. case_decide as E.
  - subst. apply list_lookup_alter_eq.
  - by apply list_lookup_alter_ne.
Qed.

Lemma set_requires_grad_run l b (s : state) :
  l < length (st_heap s) →
  set_requires_grad l b s = (State (set_flag b l (st_heap s)) (st_trace s), Ok tt).
Proof.
  intros Hl. apply lookup_lt_is_Some_2 in Hl as [t Ht].
  unfold set_requires_grad, bind, deref. rewrite Ht. do 2 f_equal.
  unfold set_flag. apply list_eq. intros j.
  destruct (decide (l = j)) as [->|Hne].
  - rewrite list_lookup_alter_eq, Ht, list_lookup_insert_eq; [done|].
    by eapply lookup_lt_Some.
  - by rewrite list_lookup_alter_ne, list_lookup_insert_ne.
Qed.

Lemma set_requires_grad_ok_inv l b (s s' : state) u :
  set_requires_grad l b s = (s', Ok u) → l < length (st_heap s).
Proof.
  unfold set_requires_grad, bind, deref.
  destruct (st_heap s !! l) eqn:E; [|done].
  intros _. by eapply lookup_lt_Some.
Qed.

(** *** Forcing the flags on *)

Lemma force_on_length ls (h : heap elt) : length (force_on ls h) = length h.
Proof.
  revert h. induction ls as [|l ls IH]; intros h; simpl; [done|].
  by rewrite IH, set_flag_length.
Qed.

Lemma force_on_lookup ls (h : heap elt) j :
  force_on ls h !! j
  = if decide (j ∈ ls) then with_requires_grad true <$> h !! j else h !! j.
Proof.
  revert h. induction ls as [|l ls IH]; intros h; simpl; [done|].
  rewrite IH, set_flag_lookup.
  destruct (decide (l = j)) as [->|Hne].
  - rewrite (decide_True (P := j ∈ j :: ls)) by left.
    case_decide; [|done]. by destruct (h !! j).
  - case_decide as Hin.
    + rewrite decide_True; [done|]. by right.
    + rewrite decide_False; [done|]. rewrite elem_of_cons. by intros [->|?].
Qed.

Lemma captured_mask_length ls (h : heap elt) :
  length (captured_mask ls h) = length ls.
Proof.
  revert h. induction ls as [|l ls IH]; intros h; simpl; [done|].
  by rewrite IH.
Qed.

(** A flag is recorded as off exactly for the tensors of [ls] whose flag
    was off. *)
Lemma captured_mask_off ls (h : heap elt) j :
  valid_refs h ls →
  (j, false) ∈ zip ls (captured_mask ls h)
  ↔ j ∈ ls ∧ flag h j = Some false.
Proof.
  revert h. induction ls as [|l ls IH]; intros h Hv; simpl.
  { split; [by intros ?%elem_of_nil | by intros [?%elem_of_nil _]]. }
  apply Forall_cons in Hv as [Hl Hv].
  apply lookup_lt_is_Some_2 in Hl as [t Ht].
  rewrite elem_of_cons, IH; last first.
  { unfold valid_refs. by rewrite set_flag_length. }
  unfold flag. rewrite set_flag_lookup, Ht. simpl.
  rewrite elem_of_cons.
  destruct (decide (l = j)) as [->|Hne].
  - rewrite Ht. simpl. split.
    + intros [[= E]|[_ [=]]]. by rewrite <- E; auto.
    + intros [_ [= E]]. left. by rewrite E.
  - split.
    + intros [[= E _]|[? ?]]; [done|auto].
    + intros [[E|?] ?]; [done|auto].
Qed.

Lemma require_each_run ls (s : state) :
  valid_refs (st_heap s) ls →
  require_each ls s
  = (State (force_on ls (st_heap s)) (st_trace s),
     Ok (captured_mask ls (st_heap s))).
Proof.
  revert s. induction ls as [|l ls IH]; intros [h tr] Hv; simpl in *; [done|].
  apply Forall_cons in Hv as [Hl Hv].
  pose proof Hl as [t Ht]%lookup_lt_is_Some_2.
  unfold bind at 1. unfold deref at 1. simpl. rewrite Ht.
  unfold bind at 1. rewrite set_requires_grad_run by done. simpl.
  unfold bind at 1. rewrite IH; simpl.
  - unfold ret, flag. by rewrite Ht.
  - unfold valid_refs. by rewrite set_flag_length.
Qed.

Lemma require_each_ok_inv ls (s s' : state) mask :
  require_each ls s = (s', Ok mask) → valid_refs (st_heap s) ls.
Proof.
  revert s s' mask. induction ls as [|l ls IH]; intros s s' mask H; [constructor|].
  simpl in H.
  apply bind_ok_inv in H as (s1 & t & H1 & H).
  apply bind_ok_inv in H as (s2 & [] & H2 & H).
  apply bind_ok_inv in H as (s3 & m & H3 & H).
  unfold deref in H1. destruct (st_heap s !! l) eqn:E; [|done].
  injection H1 as <- <-.
  pose proof (set_requires_grad_ok_inv _ _ _ _ _ H2) as Hl.
  rewrite set_requires_grad_run in H2 by done. injection H2 as <-.
  apply IH in H3. simpl in H3. unfold valid_refs in H3.
  rewrite set_flag_length in H3. by constructor.
Qed.

Lemma require_each_trace ls (s s' : state) r :
  require_each ls s = (s', r) → st_trace s' = st_trace s.
Proof.
  revert s s' r. induction ls as [|l ls IH]; intros s s' r H; simpl in H.
  { by injection H as <- _. }
  unfold bind at 1 in H. unfold deref at 1 in H.
  destruct (st_heap s !! l) as [t|] eqn:E; [|by injection H as <- _].
  unfold bind at 1 in H.
  rewrite set_requires_grad_run in H by (by eapply lookup_lt_Some).
  unfold bind at 1 in H.
  destruct (require_each ls _) as [s1 [m|e]] eqn:E1; apply IH in E1;
    by injection H as <- _.
Qed.
(** *** Resetting the flags *)

Lemma reset_off_length pairs (h : heap elt) :
  length (reset_off pairs h) = length h.
Proof.
  revert h. induction pairs as [|[l m] pairs IH]; intros h; simpl; [done|].
  rewrite IH. destruct m; [done|apply set_flag_length].
Qed.

Lemma reset_off_lookup pairs (h : heap elt) j :
  reset_off pairs h !! j
  = if decide ((j, false) ∈ pairs)
    then with_requires_grad false <$> h !! j else h !! j.
Proof.
  revert h. induction pairs as [|[l m] pairs IH]; intros h; simpl; [done|].
  rewrite IH. destruct m.
  - case_decide as Hin.
    + rewrite decide_True; [done|]. by right.
    + rewrite decide_False; [done|]. rewrite elem_of_cons. by intros [[=]|?].
  - rewrite set_flag_lookup. destruct (decide (l = j)) as [->|Hne].
    + rewrite (decide_True (P := (j, false) ∈ (j, false) :: pairs)) by left.
      case_decide; [|done]. by destruct (h !! j).
    + case_decide as Hin.
      * rewrite decide_True; [done|]. by right.
      * rewrite decide_False; [done|]. rewrite elem_of_cons.
        by intros [[=]|?].
Qed.

Lemma restore_each_run pairs (s : state) :
  valid_refs (st_heap s) pairs.*1 →
  restore_each pairs s = (State (reset_off pairs (st_heap s)) (st_trace s), Ok tt).
Proof.
  revert s. induction pairs as [|[l m] pairs IH]; intros [h tr] Hv;
    simpl in *; [done|].
  apply Forall_cons in Hv as [Hl Hv]. unfold bind. destruct m.
  - unfold ret. by rewrite IH.
  - rewrite set_requires_grad_run by done. rewrite IH; [done|].
    simpl. unfold valid_refs. by rewrite set_flag_length.
Qed.

Lemma restore_each_ok_inv pairs (s s' : state) u :
  restore_each pairs s = (s', Ok u) →
  s' = State (reset_off pairs (st_heap s)) (st_trace s).
Proof.
  revert s. induction pairs as [|[l m] pairs IH]; intros [h tr] H;
    simpl in *.
  { by injection H as <-. }
  apply bind_ok_inv in H as (s1 & [] & H1 & H). destruct m.
  - injection H1 as <-. by apply IH in H.
  - pose proof (set_requires_grad_ok_inv _ _ _ _ _ H1) as Hl.
    rewrite set_requires_grad_run in H1 by done. injection H1 as <-.
    by apply IH in H.
Qed.

Lemma restore_each_trace pairs (s s' : state) r :
  restore_each pairs s = (s', r) → st_trace s' = st_trace s.
Proof.
  revert s. induction pairs as [|[l m] pairs IH]; intros s H; simpl in H.
  { by injection H as <- _. }
  unfold bind in H. destruct m.
  - unfold ret in H. by apply IH in H.
  - unfold set_requires_grad, bind, deref in H.
    destruct (st_heap s !! l); [|by injection H as <- _].
    by apply IH in H.
Qed.

(** *** The products *)

Lemma product_at_app (h k : heap elt) p t :
  product_at emul grad_enabled h p = Some t → product_at emul grad_enabled (h ++ k) p = Some t.
Proof.
  unfold product_at. intros H.
  destruct (h !! p.1) as [a|] eqn:Ea; [|done].
  destruct (h !! p.2) as [b|] eqn:Eb; [|done].
  by rewrite (lookup_app_l_Some _ _ _ _ Ea), (lookup_app_l_Some _ _ _ _ Eb).
Qed.

Lemma tensor_mul_run x g (s : state) t :
  product_at emul grad_enabled (st_heap s) (x, g) = Some t →
  tensor_mul emul grad_enabled x g s
  = (State (st_heap s ++ [t]) (st_trace s ++ [EvMul x g]), Ok (length (st_heap s))).
Proof.
  unfold product_at, tensor_mul, bind, emit, deref, alloc. simpl.
  destruct (st_heap s !! x) as [a|]; simpl; [|done].
  destruct (st_heap s !! g) as [b|]; simpl; [|done].
  destruct (tensor_product _ _ _ _ _) as [[sh d]|]; simpl; [|done].
  by intros [= <-].
Qed.

Lemma tensor_mul_ok_inv x g (s s' : state) a :
  tensor_mul emul grad_enabled x g s = (s', Ok a) →
  ∃ t, product_at emul grad_enabled (st_heap s) (x, g) = Some t.
Proof.
  unfold product_at, tensor_mul, bind, emit, deref, alloc, raise. simpl.
  destruct (st_heap s !! x) as [ta|]; simpl; [|done].
  destruct (st_heap s !! g) as [tb|]; simpl; [|done].
  destruct (tensor_product _ _ _ _ _) as [[sh d]|]; simpl; [|done]. eauto.
Qed.

Lemma tensor_mul_raise_trace x g (s s' : state) e :
  tensor_mul emul grad_enabled x g s = (s', Raise e) →
  st_trace s' = st_trace s ++ [EvMul x g].
Proof.
  unfold tensor_mul, bind, emit, deref, alloc, raise. simpl.
  destruct (st_heap s !! x) as [ta|]; simpl; [|by intros [= <- _]].
  destruct (st_heap s !! g) as [tb|]; simpl; [|by intros [= <- _]].
  destruct (tensor_product _ _ _ _ _) as [[sh d]|]; simpl; [done|].
  by intros [= <- _].
Qed.

Local Abbreviation products :=
  (tuple_of (λ '(input, gradient), tensor_mul emul grad_enabled input gradient)).

(** When every product is defined on the heap the loop starts from, the
    loop appends them in order and returns their references. *)
Lemma products_run pairs (s : state) news :
  mapM (product_at emul grad_enabled (st_heap s)) pairs = Some news →
  products pairs s
  = (State (st_heap s ++ news) (st_trace s ++ (uncurry EvMul <$> pairs)),
     Ok (seq (length (st_heap s)) (length pairs))).
Proof.
  revert s news. induction pairs as [|[x g] pairs IH]; intros [h tr] news H;
    simpl in *.
  { injection H as <-. unfold ret. by rewrite !app_nil_r. }
  destruct (product_at emul grad_enabled h (x, g)) as [t|] eqn:Et; [|done]. simpl in H.
  destruct (mapM _ pairs) as [news'|] eqn:En; [|done]. injection H as <-.
  unfold bind at 1. rewrite (tensor_mul_run _ _ _ t) by done. simpl.
  unfold bind at 1. rewrite (IH _ news'); simpl.
  - unfold ret. rewrite length_app. simpl.
    rewrite <- !(assoc_L (++)). simpl. do 4 f_equal. lia.
  - clear IH. revert news' En. generalize pairs.
    induction pairs0 as [|p ps IHp]; intros news' En; simpl in *; [done|].
    destruct (product_at emul grad_enabled h p) as [tp|] eqn:Ep; [|done]. simpl in En.
    destruct (mapM _ ps) as [n'|] eqn:En'; [|done].
    rewrite (product_at_app _ _ _ _ Ep). simpl.
    by rewrite (IHp n' eq_refl).
Qed.

(** A loop that returns normally has appended one product per pair,
    each the product of its operands as they still are at the end. *)
Lemma products_ok_inv pairs (s s' : state) attrs :
  products pairs s = (s', Ok attrs) →
  ∃ news,
    s' = State (st_heap s ++ news) (st_trace s ++ (uncurry EvMul <$> pairs))
    ∧ attrs = seq (length (st_heap s)) (length pairs)
    ∧ Forall2 (λ p t, product_at emul grad_enabled (st_heap s ++ news) p = Some t) pairs news.
Proof.
  revert s s' attrs. induction pairs as [|[x g] pairs IH]; intros [h tr] s' attrs H;
    simpl in *.
  { injection H as <- <-. exists []. by rewrite !app_nil_r. }
  apply bind_ok_inv in H as (s1 & a & H1 & H).
  apply bind_ok_inv in H as (s2 & ys & H2 & H).
  injection H as <- <-.
  destruct (tensor_mul_ok_inv _ _ _ _ _ H1) as [t Ht].
  rewrite (tensor_mul_run _ _ _ t) in H1 by done. injection H1 as <- <-.
  apply IH in H2 as (news & -> & -> & HF). simpl in *.
  exists (t :: news). rewrite <- !(assoc_L (++)) in *. simpl.
  split_and!.
  - done.
  - rewrite length_app. simpl. do 2 f_equal. lia.
  - constructor; [|done].
    by apply product_at_app.
Qed.

(** Whatever its outcome, the loop records one multiplication per pair
    it reached, in order, and nothing else. *)
Lemma products_trace pairs (s s' : state) r :
  products pairs s = (s', r) →
  ∃ k, k ≤ length pairs
    ∧ st_trace s' = st_trace s ++ (uncurry EvMul <$> take k pairs)
    ∧ (∀ attrs, r = Ok attrs → k = length pairs).
Proof.
  revert s s' r. induction pairs as [|[x g] pairs IH]; intros s s' r H;
    simpl in *.
  { injection H as <- <-. exists 0. by rewrite app_nil_r. }
  unfold bind at 1 in H.
  destruct (tensor_mul emul grad_enabled x g s) as [s1 [a|e]] eqn:E1.
  - destruct (tensor_mul_ok_inv _ _ _ _ _ E1) as [t Ht].
    rewrite (tensor_mul_run _ _ _ t) in E1 by done. injection E1 as <- <-.
    unfold bind at 1 in H.
    destruct (products pairs _) as [s2 [ys|e]] eqn:E2;
      apply IH in E2 as (k & Hk & Htr & Hok); simpl in *.
    + injection H as <- <-. exists (S k). simpl.
      rewrite Htr, <- (assoc_L (++)). split_and!; [lia|done|].
      intros _ _. f_equal. by eapply Hok.
    + injection H as <- <-. exists (S k). simpl.
      rewrite Htr, <- (assoc_L (++)). split_and!; [lia|done|done].
  - injection H as <- <-. exists 1. simpl.
    split_and!; [lia| by eapply tensor_mul_raise_trace |done].
Qed.
(** *** The whole call *)

Local Abbreviation IXG := (InputXGradient elt Forward Target Args).

Lemma format_input_run inputs (s : state) :
  format_input inputs s
  = (State (st_heap s) (st_trace s ++ [EvFormatInput inputs]),
     Ok (inputs_list inputs)).
Proof. by destruct inputs. Qed.

Lemma _format_attributions_ok_inv tag attrs (s s' : state) res :
  _format_attributions tag attrs s = (s', Ok res) →
  s' = State (st_heap s) (st_trace s ++ [EvFormatAttributions tag attrs])
  ∧ result_list res = attrs ∧ result_is_tuple res = tag.
Proof.
  unfold _format_attributions, bind, emit, ret, raise. simpl.
  destruct tag; [by intros [= <- <-]|].
  destruct attrs as [|a [|]]; [done| |done]. by intros [= <- <-].
Qed.

Lemma _format_attributions_trace tag attrs (s s' : state) r :
  _format_attributions tag attrs s = (s', r) →
  s' = State (st_heap s) (st_trace s ++ [EvFormatAttributions tag attrs]).
Proof.
  unfold _format_attributions, bind, emit, ret, raise. simpl.
  destruct tag; [by intros [= <- _]|].
  destruct attrs as [|a [|]]; by intros [= <- _].
Qed.

(** A call on existing tensors whose gradient capability returns [gs],
    all products being defined, runs up to its last step. *)
Lemma attribute_run (self : IXG) inputs target args (s : state) h2 gs news :
  let ins := inputs_list inputs in
  let attrs := seq (length h2) (length (zip ins gs)) in
  valid_refs (st_heap s) ins →
  gradient_func self (forward_func self) ins target args
    (force_on ins (st_heap s)) = (h2, Ok gs) →
  valid_refs h2 ins →
  mapM (product_at emul grad_enabled h2) (zip ins gs) = Some news →
  ∃ r,
    attribute emul grad_enabled self inputs target args s
    = (State (reset_off (zip ins (captured_mask ins (st_heap s))) (h2 ++ news))
             (st_trace s
                ++ events_of_call self inputs target args (st_heap s) gs attrs),
       r)
    ∧ ∀ s3 : state, (_format_attributions (isinstance_tuple inputs) attrs s3).2 = r.
Proof.
  intros ins attrs Hv Hg Hv2 Hp. destruct s as [h tr]. simpl in *.
  unfold attribute. unfold bind at 1. rewrite format_input_run. simpl.
  fold ins. unfold bind at 1, apply_gradient_requirements. unfold bind at 1.
  unfold emit at 1. simpl. rewrite require_each_run by done. simpl.
  unfold bind at 1, call_gradient_func. simpl. rewrite Hg.
  unfold bind at 1. rewrite (products_run _ _ news) by done. simpl.
  unfold bind at 1, undo_gradient_requirements. unfold bind at 1.
  unfold emit at 1. simpl. rewrite restore_each_run; simpl; last first.
  { unfold valid_refs. rewrite length_app.
    apply Forall_forall. intros l Hl%list_elem_of_fmap.
    destruct Hl as ([l' m] & -> & Hin%elem_of_zip_l). simpl.
    unfold valid_refs in Hv2. rewrite Forall_forall in Hv2.
    specialize (Hv2 _ Hin). lia. }
  fold attrs. unfold events_of_call. fold ins. simpl.
  destruct (_format_attributions _ attrs _) as [s' r] eqn:E.
  exists r. split.
  - apply _format_attributions_trace in E as ->. simpl.
    by rewrite <- !(assoc_L (++)).
  - intros s3. revert E. unfold _format_attributions, bind, emit, ret, raise.
    simpl. destruct (isinstance_tuple inputs); [by intros [= _ <-]|].
    destruct attrs as [|a [|]]; by intros [= _ <-].
Qed.

(** What a call that returned normally went through. *)
Lemma attribute_ok_inv (self : IXG) inputs target args (s s' : state) res :
  attribute emul grad_enabled self inputs target args s = (s', Ok res) →
  let ins := inputs_list inputs in
  ∃ h2 gs news,
    valid_refs (st_heap s) ins
    ∧ gradient_func self (forward_func self) ins target args
        (force_on ins (st_heap s)) = (h2, Ok gs)
    ∧ Forall2 (λ p t, product_at emul grad_enabled (h2 ++ news) p = Some t) (zip ins gs) news
    ∧ st_heap s' = reset_off (zip ins (captured_mask ins (st_heap s))) (h2 ++ news)
    ∧ st_trace s' = st_trace s
        ++ events_of_call self inputs target args (st_heap s) gs (result_list res)
    ∧ result_list res = seq (length h2) (length (zip ins gs))
    ∧ result_is_tuple res = isinstance_tuple inputs.
Proof.
  intros H ins. destruct s as [h tr]. unfold attribute in H.
  apply bind_ok_inv in H as (s1 & ins' & H1 & H).
  rewrite format_input_run in H1. injection H1 as <- <-. fold ins in H.
  apply bind_ok_inv in H as (s2 & mask & H2 & H).
  unfold apply_gradient_requirements in H2.
  apply bind_ok_inv in H2 as (s2' & [] & H2' & H2). injection H2' as <-.
  pose proof (require_each_ok_inv _ _ _ _ H2) as Hv. simpl in Hv.
  rewrite require_each_run in H2 by done. injection H2 as <- <-. simpl in H.
  apply bind_ok_inv in H as (s3 & gs & H3 & H).
  unfold call_gradient_func in H3. simpl in H3.
  destruct (gradient_func self _ _ _ _ _) as [h2 r] eqn:Hg.
  injection H3 as <- ->.
  apply bind_ok_inv in H as (s4 & attrs & H4 & H).
  apply products_ok_inv in H4 as (news & -> & -> & HF). simpl in *.
  apply bind_ok_inv in H as (s5 & [] & H5 & H).
  unfold undo_gradient_requirements in H5.
  apply bind_ok_inv in H5 as (s5' & [] & H5' & H5). injection H5' as <-.
  apply restore_each_ok_inv in H5 as ->. simpl in H.
  apply _format_attributions_ok_inv in H as (-> & Hres & Htag). simpl.
  exists h2, gs, news. rewrite Hres. unfold events_of_call. fold ins.
  split_and!; try done. by rewrite <- !(assoc_L (++)).
Qed.
End EngineFacts.

(** ** Facts shared by the properties of a call *)

Section CallFacts.
Context {elt Forward Target Args : Type}.
Variable emul : elt → elt → elt.
Variable grad_enabled : bool.

Local Abbreviation state := (state elt Forward Target Args).
Local Abbreviation IXG := (InputXGradient elt Forward Target Args).

(** Resetting flags changes neither shapes nor elements. *)
Lemma reset_off_data pairs (h : heap elt) j t :
  h !! j = Some t →
  ∃ t', reset_off pairs h !! j = Some t'
        ∧ shape t' = shape t ∧ elems t' = elems t.
Proof.
  intros Ht. rewrite reset_off_lookup, Ht. case_decide; simpl; eauto.
Qed.

Lemma reset_off_data_inv pairs (h : heap elt) j t' :
  reset_off pairs h !! j = Some t' →
  ∃ t, h !! j = Some t ∧ shape t' = shape t ∧ elems t' = elems t.
Proof.
  rewrite reset_off_lookup. destruct (h !! j) as [t|]; [|by case_decide].
  case_decide; intros [= <-]; eauto.
Qed.

(** Forcing the flags on and then resetting those recorded as off gives
    back every object as it was, also below objects created since. *)
Lemma reset_off_force_on ls (h h2 : heap elt) l t :
  valid_refs h ls →
  force_on ls h `prefix_of` h2 →
  h !! l = Some t →
  reset_off (zip ls (captured_mask ls h)) h2 !! l = Some t.
Proof.
  intros Hv Hpre Ht.
  assert (h2 !! l = if decide (l ∈ ls) then Some (with_requires_grad true t)
                    else Some t) as H2.
  { case_decide as Hin; (eapply prefix_lookup_Some; [|done]);
      rewrite force_on_lookup, Ht; [by rewrite decide_True|by rewrite decide_False]. }
  rewrite reset_off_lookup, H2.
  pose proof (captured_mask_off ls h l Hv) as Hoff.
  unfold flag in Hoff. rewrite Ht in Hoff. simpl in Hoff.
  destruct (decide ((l, false) ∈ zip ls (captured_mask ls h))) as [Hz|Hz].
  - apply Hoff in Hz as [Hin [= Hf]]. rewrite decide_True by done. simpl.
    rewrite with_requires_grad_twice, <- Hf. by rewrite with_requires_grad_same.
  - case_decide as Hin; [|done]. destruct (requires_grad t) eqn:Hf.
    + f_equal. destruct t; simpl in *. by subst.
    + destruct Hz. by apply Hoff.
Qed.

Lemma stage_of_muls (pairs : list (loc * loc)) :
  stage_of <$> ((uncurry EvMul <$> pairs) : list (event elt Forward Target Args))
  = replicate (length pairs) Multiply.
Proof. induction pairs as [|[x g] pairs IH]; simpl; [done|]. by f_equal. Qed.

Lemma muls_no_gradient_call (pairs : list (loc * loc)) f i t a h :
  EvGradientFunc f i t a h
    ∉ ((uncurry EvMul <$> pairs) : list (event elt Forward Target Args)).
Proof. intros ([x g] & [=] & _)%list_elem_of_fmap. Qed.

(** After a normal return every object that existed before the call is
    as it was, provided the gradient capability left the objects alone. *)
Lemma attribute_frame (self : IXG) inputs target args (s s' : state) res :
  preserves_objects self →
  attribute emul grad_enabled self inputs target args s = (s', Ok res) →
  ∀ l t, st_heap s !! l = Some t → st_heap s' !! l = Some t.
Proof.
  intros Hp H l t Ht.
  apply attribute_ok_inv in H as (h2 & gs & news & Hv & Hg & _ & -> & _).
  apply reset_off_force_on; [done| |done].
  apply prefix_app_r. by eapply Hp.
Qed.

(** After a normal return each attribution is, on the final heap, the
    product of the input and of the gradient at its position. *)
Lemma attribute_products (self : IXG) inputs target args (s s' : state) res :
  attribute emul grad_enabled self inputs target args s = (s', Ok res) →
  let ins := inputs_list inputs in
  ∃ h2 gs,
    gradient_func self (forward_func self) ins target args
      (force_on ins (st_heap s)) = (h2, Ok gs)
    ∧ length (result_list res) = length ins `min` length gs
    ∧ ∀ i a, result_list res !! i = Some a →
        ∃ x g tx tg ta,
          ins !! i = Some x ∧ gs !! i = Some g
          ∧ st_heap s' !! x = Some tx ∧ st_heap s' !! g = Some tg
          ∧ st_heap s' !! a = Some ta
          ∧ length h2 ≤ a
          ∧ tensor_product emul (shape tx) (elems tx) (shape tg) (elems tg)
            = Some (shape ta, elems ta).
Proof.
  intros H ins.
  apply attribute_ok_inv in H as (h2 & gs & news & Hv & Hg & HF & -> & _ & -> & _).
  fold ins in Hg, HF |- *. exists h2, gs. split_and!; [done| |].
  { by rewrite length_seq, length_zip. }
  intros i a [-> Hi]%lookup_seq.
  apply lookup_lt_is_Some_2 in Hi as [[x g] Hxg].
  destruct (Forall2_lookup_l _ _ _ _ _ HF Hxg) as (t & Ht & Hprod).
  apply lookup_zip_with_Some in Hxg as (x' & g' & [= <- <-] & Hx & Hg').
  unfold product_at in Hprod. simpl in Hprod.
  destruct ((h2 ++ news) !! x) as [tx0|] eqn:Ex; [|done].
  destruct ((h2 ++ news) !! g) as [tg0|] eqn:Eg; [|done]. simpl in Hprod.
  destruct (tensor_product _ _ _ _ _) as [[sh d]|] eqn:Ep; [|done].
  injection Hprod as <-.
  set (pairs := zip ins (captured_mask ins (st_heap s))).
  destruct (reset_off_data pairs _ _ _ Ex) as (tx & Hx' & Hsx & Hex).
  destruct (reset_off_data pairs _ _ _ Eg) as (tg & Hg'' & Hsg & Heg).
  assert ((h2 ++ news) !! (length h2 + i) = Some (Tensor sh d (grad_enabled && (requires_grad tx0 || requires_grad tg0)))) as Ea.
  { rewrite lookup_app_r by lia. by replace (length h2 + i - length h2) with i by lia. }
  destruct (reset_off_data pairs _ _ _ Ea) as (ta & Ha & Hsa & Hea).
  exists x, g, tx, tg, ta. split_and!; try done; [lia|].
  by rewrite Hsx, Hex, Hsg, Heg, Hsa, Hea.
Qed.

(** Whatever its outcome, a call records the two first steps, then the
    gradient call unless a reference of [inputs] names no object, then
    the multiplications it reached, then the restoring and the
    denormalising steps it reached; a normal return went through all. *)
Lemma attribute_trace (self : IXG) inputs target args (s : state) :
  let ins := inputs_list inputs in
  let out := attribute emul grad_enabled self inputs target args s in
  ∃ grad pairs tail,
    st_trace out.1
    = st_trace s ++ [EvFormatInput inputs; EvApplyGradientRequirements ins]
        ++ grad ++ (uncurry EvMul <$> pairs) ++ tail
    ∧ (grad = [] ∧ pairs = [] ∧ tail = [] ∧ ¬ valid_refs (st_heap s) ins
       ∨ grad = [EvGradientFunc (forward_func self) ins target args
                   (force_on ins (st_heap s))]
         ∧ valid_refs (st_heap s) ins)
    ∧ (tail = []
       ∨ (∃ mask, tail = [EvUndoGradientRequirements ins mask])
       ∨ (∃ mask attrs, tail = [EvUndoGradientRequirements ins mask;
                                EvFormatAttributions (isinstance_tuple inputs) attrs]))
    ∧ (∀ res, out.2 = Ok res → length tail = 2).
Proof.
  intros ins out. subst out. destruct s as [h tr].
  destruct (attribute _ _ _ _ _ _) as [s' r] eqn:H. simpl.
  unfold attribute in H.
  unfold bind at 1 in H. rewrite format_input_run in H. simpl in H. fold ins in H.
  unfold bind at 1, apply_gradient_requirements in H. unfold bind at 1 in H.
  unfold emit at 1 in H. simpl in H.
  destruct (require_each ins _) as [s2 [mask|e]] eqn:E2; last first.
  { apply require_each_trace in E2 as Htr. simpl in *.
    injection H as <- <-. rewrite Htr.
    exists [], [], []. rewrite <- !(assoc_L (++)).
    split_and!; [done| |by left|done].
    left. split_and!; try done. intros Hv.
    by rewrite require_each_run in E2. }
  pose proof (require_each_ok_inv _ _ _ _ E2) as Hv. simpl in Hv.
  rewrite require_each_run in E2 by done. injection E2 as <- <-. simpl in H.
  set (G := EvGradientFunc (forward_func self) ins target args (force_on ins h)).
  unfold bind at 1, call_gradient_func in H. simpl in H.
  destruct (gradient_func self _ _ _ _ _) as [h2 [gs|e]] eqn:Hg; last first.
  { injection H as <- <-. exists [G], [], []. simpl.
    rewrite <- !(assoc_L (++)).
    split_and!; [done|by right|by left|done]. }
  unfold bind at 1 in H.
  destruct (tuple_of _ (zip ins gs) _) as [s4 r4] eqn:E4.
  destruct (products_trace _ _ _ _ _ _ E4) as (k & Hk & Htr4 & Hok). simpl in Htr4.
  destruct r4 as [attrs|e]; last first.
  { injection H as <- <-. rewrite Htr4. exists [G], (take k (zip ins gs)), [].
    rewrite <- !(assoc_L (++)). simpl. rewrite app_nil_r.
    split_and!; [done|by right|by left|done]. }
  rewrite (Hok attrs eq_refl), firstn_all in Htr4.
  unfold bind at 1, undo_gradient_requirements in H. unfold bind at 1 in H.
  unfold emit at 1 in H. simpl in H.
  destruct (restore_each _ _) as [s5 [[]|e]] eqn:E5;
    apply restore_each_trace in E5 as Htr5; simpl in Htr5.
  - pose proof (_format_attributions_trace _ _ _ _ _ H) as ->. simpl.
    rewrite Htr5, Htr4.
    exists [G], (zip ins gs),
      [EvUndoGradientRequirements ins (captured_mask ins h);
       EvFormatAttributions (isinstance_tuple inputs) attrs].
    rewrite <- !(assoc_L (++)). simpl.
    split_and!; [done|by right| |done]. right. right. eauto.
  - injection H as <- <-. rewrite Htr5, Htr4.
    exists [G], (zip ins gs),
      [EvUndoGradientRequirements ins (captured_mask ins h)].
    rewrite <- !(assoc_L (++)). simpl.
    split_and!; [done|by right| |done]. right. left. eauto.
Qed.
(** A gradient capability that raises ends the call there. *)
Lemma attribute_gradient_raises (self : IXG) inputs target args (s : state) h2 e :
  let ins := inputs_list inputs in
  valid_refs (st_heap s) ins →
  gradient_func self (forward_func self) ins target args
    (force_on ins (st_heap s)) = (h2, Raise e) →
  attribute emul grad_enabled self inputs target args s
  = (State h2 (st_trace s
       ++ [EvFormatInput inputs; EvApplyGradientRequirements ins;
           EvGradientFunc (forward_func self) ins target args
             (force_on ins (st_heap s))]),
     Raise e).
Proof.
  intros ins Hv Hg. destruct s as [h tr]. simpl in *. unfold attribute.
  unfold bind at 1. rewrite format_input_run. simpl. fold ins.
  unfold bind at 1, apply_gradient_requirements. unfold bind at 1.
  unfold emit at 1. simpl. rewrite require_each_run by done. simpl.
  unfold bind at 1, call_gradient_func. simpl. rewrite Hg.
  by rewrite <- !(assoc_L (++)).
Qed.

Lemma constant_gradients_preserves_objects f (gs : list (tensor elt)) :
  preserves_objects
    ({| forward_func := f; gradient_func := constant_gradients gs |} : IXG).
Proof. intros ? ? ? ? h h' r [= <- _]. by apply prefix_app_r. Qed.

Lemma raising_gradients_preserves_objects f e :
  preserves_objects
    ({| forward_func := f; gradient_func := raising_gradients e |} : IXG).
Proof. by intros ? ? ? ? h h' r [= <- _]. Qed.
End CallFacts.

(** ** Facts on the steps of a call *)

Section StepFacts.
Context {elt Forward Target Args : Type}.
Variable emul : elt → elt → elt.
Variable grad_enabled : bool.

Local Abbreviation state := (state elt Forward Target Args).
Local Abbreviation M := (@M elt Forward Target Args).
Local Abbreviation IXG := (InputXGradient elt Forward Target Args).
Local Abbreviation products :=
  (tuple_of (λ '(input, gradient), tensor_mul emul grad_enabled input gradient)).

Lemma bind_format_input {B} inputs (k : list loc → M B) s :
  bind (format_input inputs) k s
  = k (inputs_list inputs)
      (State (st_heap s) (st_trace s ++ [EvFormatInput inputs])).
Proof. unfold bind. by rewrite format_input_run. Qed.

(** The gradient call, followed by the rest of the call. *)
Lemma bind_call_gradient_func {B} (self : IXG) f ins t a (k : list loc → M B) s :
  bind (call_gradient_func self f ins t a) k s
  = let '(h', r) := gradient_func self f ins t a (st_heap s) in
    let s' := State h' (st_trace s ++ [EvGradientFunc f ins t a (st_heap s)]) in
    match r with
    | Ok gs => k gs s'
    | Raise e => (s', Raise e)
    end.
Proof.
  unfold bind, call_gradient_func.
  by destruct (gradient_func self f ins t a (st_heap s)) as [h' [gs|e]].
Qed.

(** The flags helper, whatever its outcome, records itself and nothing
    else; when it returns normally tracking was forced on for every
    input and the flags met are returned. *)
Lemma apply_gradient_requirements_trace ins (s s' : state) r :
  apply_gradient_requirements ins s = (s', r) →
  st_trace s' = st_trace s ++ [EvApplyGradientRequirements ins].
Proof.
  unfold apply_gradient_requirements, bind, emit. simpl. intros H.
  by apply require_each_trace in H.
Qed.

Lemma apply_gradient_requirements_ok ins (s s' : state) mask :
  apply_gradient_requirements ins s = (s', Ok mask) →
  valid_refs (st_heap s) ins
  ∧ s' = State (force_on ins (st_heap s))
           (st_trace s ++ [EvApplyGradientRequirements ins])
  ∧ mask = captured_mask ins (st_heap s).
Proof.
  unfold apply_gradient_requirements, bind, emit. simpl. intros H.
  pose proof (require_each_ok_inv _ _ _ _ H) as Hv. simpl in Hv.
  rewrite require_each_run in H by done. by injection H as <- <-.
Qed.

Lemma undo_gradient_requirements_trace ins mask (s s' : state) r :
  undo_gradient_requirements ins mask s = (s', r) →
  st_trace s' = st_trace s ++ [EvUndoGradientRequirements ins mask].
Proof.
  unfold undo_gradient_requirements, bind, emit. simpl. intros H.
  by apply restore_each_trace in H.
Qed.

(** A loop of products that raises recorded the multiplications up to
    the one that raised, at least one. *)
Lemma products_raise_trace pairs (s s' : state) e :
  products pairs s = (s', Raise e) →
  ∃ k, 1 ≤ k ≤ length pairs
       ∧ st_trace s' = st_trace s ++ (uncurry EvMul <$> take k pairs).
Proof.
  revert s. induction pairs as [|[x g] pairs IH]; intros s H; simpl in H;
    [done|].
  apply bind_raise_inv in H as [H|(s1 & a & H1 & H)].
  - exists 1. simpl. split; [lia|].
    by eapply tensor_mul_raise_trace.
  - apply bind_raise_inv in H as [H|(s2 & ys & _ & [=])].
    destruct (tensor_mul_ok_inv _ _ _ _ _ _ _ H1) as [t Ht].
    rewrite (tensor_mul_run _ _ _ _ _ t) in H1 by done. injection H1 as <- <-.
    apply IH in H as (k & Hk & ->). simpl.
    exists (S k). simpl. split; [lia|]. by rewrite <- (assoc_L (++)).
Qed.

(** On existing inputs a call comes down to one application of the
    gradient capability, to the forward function, the normalised inputs,
    the target and the additional arguments, on the heap where tracking
    was forced on: what the capability raises is raised, and the
    gradients it returns are multiplied on the heap it leaves. *)
Lemma attribute_at_gradient_call (self : IXG) inputs target args (s : state) :
  let ins := inputs_list inputs in
  let h1 := force_on ins (st_heap s) in
  let called :=
    st_trace s ++ [EvFormatInput inputs; EvApplyGradientRequirements ins;
                   EvGradientFunc (forward_func self) ins target args h1] in
  valid_refs (st_heap s) ins →
  attribute emul grad_enabled self inputs target args s
  = match gradient_func self (forward_func self) ins target args h1 with
    | (h2, Raise e) => (State h2 called, Raise e)
    | (h2, Ok gs) =>
        bind (products (zip ins gs))
          (λ attributions,
             bind (undo_gradient_requirements ins (captured_mask ins (st_heap s)))
               (λ _, _format_attributions (isinstance_tuple inputs) attributions))
          (State h2 called)
    end.
Proof.
  intros ins h1 called Hv. destruct s as [h tr]. subst h1 called. simpl in *.
  unfold attribute. rewrite bind_format_input. simpl. fold ins.
  unfold bind at 1, apply_gradient_requirements. unfold bind at 1.
  unfold emit at 1. simpl. rewrite require_each_run by done. simpl.
  rewrite bind_call_gradient_func. simpl.
  rewrite <- !(assoc_L (++)). simpl.
  by destruct (gradient_func self _ _ _ _ _) as [h2 [gs|e]].
Qed.
End StepFacts.

(** ** Properties of [InputXGradient.attribute] *)

Section Properties.
Context {elt Forward Target Args : Type}.
Variable emul : elt → elt → elt.
Variable grad_enabled : bool.

Local Abbreviation state := (state elt Forward Target Args).
Local Abbreviation IXG := (InputXGradient elt Forward Target Args).

(** C1, as amended.  A call that returns normally leaves every tensor
    with the differentiability flag it had before the call, the gradient
    capability having left the objects alone.  There is no cleanup on the
    error path: when the gradient capability raises, the call raises the
    same exception and every input tensor is left with its flag on. *)
Theorem attribute_restores_flags_on_normal_return
    (self : IXG) inputs target args (s : state) :
  preserves_objects self →
  valid_refs (st_heap s) (inputs_list inputs) →
  (∀ s' res,
     attribute emul grad_enabled self inputs target args s = (s', Ok res) →
     ∀ l b, flag (st_heap s) l = Some b → flag (st_heap s') l = Some b)
  ∧ (∀ h2 e,
       gradient_func self (forward_func self) (inputs_list inputs) target args
         (force_on (inputs_list inputs) (st_heap s)) = (h2, Raise e) →
       ∃ s', attribute emul grad_enabled self inputs target args s = (s', Raise e)
             ∧ ∀ l, l ∈ inputs_list inputs → flag (st_heap s') l = Some true).
Proof.
  intros Hp Hv. split.
  - intros s' res H l b Hl. unfold flag in *.
    destruct (st_heap s !! l) as [t|] eqn:Ht; [|done].
    by rewrite (attribute_frame emul grad_enabled self _ _ _ _ _ _ Hp H l t Ht).
  - intros h2 e Hg. eexists. split; [by apply attribute_gradient_raises|].
    simpl. intros l Hl. apply Hp in Hg.
    unfold valid_refs in Hv. rewrite Forall_forall in Hv.
    destruct (lookup_lt_is_Some_2 _ _ (Hv l Hl)) as [t Ht].
    unfold flag. erewrite prefix_lookup_Some; [|  |done].
    2:{ rewrite force_on_lookup, Ht. by rewrite decide_True. }
    done.
Qed.

(** C3.  The result mirrors the form of [inputs] and the two forms are
    never confused: a call that returns normally returns a single tensor
    for a single tensor and a tuple for a tuple, a one-element tuple
    included; the gradient capability returning one gradient per input,
    as is its contract, the tuple has the length of [inputs].  Under
    that contract a call on existing inputs whose products are all
    defined does return normally. *)
Theorem attribute_mirrors_input_form
    (self : IXG) inputs target args (s : state) :
  (∀ s' res,
     attribute emul grad_enabled self inputs target args s = (s', Ok res) →
     ∃ h2 gs,
       gradient_func self (forward_func self) (inputs_list inputs) target args
         (force_on (inputs_list inputs) (st_heap s)) = (h2, Ok gs)
       ∧ match inputs, res with
         | PyTensor _, ResTensor _ => True
         | PyTuple ts, ResTuple attrs =>
             length gs = length ts → length attrs = length ts
         | _, _ => False
         end)
  ∧ (∀ h2 gs news,
       valid_refs (st_heap s) (inputs_list inputs) →
       gradient_func self (forward_func self) (inputs_list inputs) target args
         (force_on (inputs_list inputs) (st_heap s)) = (h2, Ok gs) →
       length gs = length (inputs_list inputs) →
       valid_refs h2 (inputs_list inputs) →
       mapM (product_at emul grad_enabled h2) (zip (inputs_list inputs) gs)
         = Some news →
       ∃ s' res,
         attribute emul grad_enabled self inputs target args s = (s', Ok res)).
Proof.
  split.
  - intros s' res H.
    destruct (attribute_products emul grad_enabled _ _ _ _ _ _ _ H)
      as (h2 & gs & Hg & Hlen & _).
    destruct (attribute_ok_inv emul grad_enabled _ _ _ _ _ _ _ H)
      as (h2o & gso & newso & _ & _ & _ & _ & _ & _ & Htag).
    exists h2, gs. split; [done|].
    destruct inputs as [x|ts], res as [a|attrs]; try done; simpl in *. lia.
  - intros h2 gs news Hv Hg Hlen Hv2 Hnews.
    destruct (attribute_run emul grad_enabled self inputs target args s h2 gs
                news Hv Hg Hv2 Hnews) as (r & Hrun & Hr).
    assert (∃ res, r = Ok res) as [res ->]; [|by eauto].
    rewrite <- (Hr s). unfold _format_attributions, bind, emit, ret. simpl.
    destruct inputs as [x|ts]; simpl; [|eauto].
    simpl in Hlen. destruct gs as [|g [|]]; try done. simpl. eauto.
Qed.

(** C4.  There is no local recovery: a call raises [e] exactly when one
    of its collaborators raised [e], with the state that collaborator
    left; the exception is neither caught nor replaced.  A call in which
    a collaborator raised returns no attribution at all. *)
Theorem attribute_propagates_exceptions
    (self : IXG) inputs target args (s s' : state) e :
  (attribute emul grad_enabled self inputs target args s = (s', Raise e)
   ↔ step_raises emul grad_enabled self inputs target args s s' e)
  ∧ (step_raises emul grad_enabled self inputs target args s s' e →
     ∀ s'' res, attribute emul grad_enabled self inputs target args s ≠ (s'', Ok res)).
Proof.
  assert (step_raises emul grad_enabled self inputs target args s s' e →
          attribute emul grad_enabled self inputs target args s = (s', Raise e)) as Hback.
  { intros Hstep. unfold attribute.
    inversion Hstep as
      [? ? H1 | ? ? ? ? H1 H2 | ? ? ? ? ? ? H1 H2 H3
      | ? ? ? ? ? ? ? ? H1 H2 H3 H4 | ? ? ? ? ? ? ? ? ? ? H1 H2 H3 H4 H5
      | ? ? ? ? ? ? ? ? ? ? ? ? H1 H2 H3 H4 H5 H6]; subst.
    - by erewrite bind_raise.
    - erewrite bind_ok by exact H1. by erewrite bind_raise.
    - erewrite bind_ok by exact H1. erewrite bind_ok by exact H2.
      erewrite bind_raise; [done|]. unfold call_gradient_func. by rewrite H3.
    - erewrite bind_ok by exact H1. erewrite bind_ok by exact H2.
      erewrite bind_ok by exact H3. by erewrite bind_raise.
    - erewrite bind_ok by exact H1. erewrite bind_ok by exact H2.
      erewrite bind_ok by exact H3. erewrite bind_ok by exact H4.
      by erewrite bind_raise.
    - erewrite bind_ok by exact H1. erewrite bind_ok by exact H2.
      erewrite bind_ok by exact H3. erewrite bind_ok by exact H4.
      by erewrite bind_ok by exact H5. }
  split; [split; [|done]|].
  - unfold attribute. intros H.
    apply bind_raise_inv in H as [H|(s1 & ins & H1 & H)];
      [by eapply format_input_raises|].
    apply bind_raise_inv in H as [H|(s2 & mask & H2 & H)];
      [by eapply apply_gradient_requirements_raises|].
    apply bind_raise_inv in H as [H|(s3 & gs & H3 & H)].
    { unfold call_gradient_func in H.
      destruct (gradient_func self _ _ _ _ _) as [h3 r] eqn:Hg.
      injection H as <- ->. by eapply gradient_func_raises. }
    apply bind_raise_inv in H as [H|(s4 & attrs & H4 & H)];
      [by eapply multiplication_raises|].
    apply bind_raise_inv in H as [H|(s5 & u & H5 & H)];
      [by eapply undo_gradient_requirements_raises|].
    by eapply format_attributions_raises.
  - intros Hstep s'' res. by rewrite (Hback Hstep).
Qed.

(** C5.  On existing inputs, when the gradient capability returns one
    gradient per input, each shaped like its input, the call returns
    normally, in the form of [inputs], one attribution per input, in the
    order of the inputs, each shaped like its input. *)
Theorem attribute_preserves_count_order_and_shape
    (self : IXG) inputs target args (s : state) h2 gs :
  valid_refs (st_heap s) (inputs_list inputs) →
  gradient_func self (forward_func self) (inputs_list inputs) target args
    (force_on (inputs_list inputs) (st_heap s)) = (h2, Ok gs) →
  Forall2 (λ x g, ∃ tx tg, h2 !! x = Some tx ∧ h2 !! g = Some tg
                            ∧ shape tg = shape tx)
    (inputs_list inputs) gs →
  ∃ s' res,
    attribute emul grad_enabled self inputs target args s = (s', Ok res)
    ∧ result_is_tuple res = isinstance_tuple inputs
    ∧ Forall2 (λ x a, ∃ tx ta, st_heap s' !! x = Some tx
                                ∧ st_heap s' !! a = Some ta
                                ∧ shape ta = shape tx)
        (inputs_list inputs) (result_list res).
Proof.
  intros Hv Hg Hc. set (ins := inputs_list inputs) in *.
  pose proof (Forall2_length _ _ _ Hc) as Hlen.
  assert (valid_refs h2 ins) as Hv2.
  { apply Forall_forall. intros x [i Hi]%list_elem_of_lookup_1.
    destruct (Forall2_lookup_l _ _ _ _ _ Hc Hi) as (g & _ & tx & _ & Hx & _).
    by eapply lookup_lt_Some. }
  assert (is_Some (mapM (product_at emul grad_enabled h2) (zip ins gs))) as [news Hnews].
  { apply mapM_is_Some_2, Forall_forall.
    intros [x g] [i Hi]%list_elem_of_lookup_1.
    apply lookup_zip_with_Some in Hi as (x' & g' & [= <- <-] & Hx & Hgi).
    destruct (Forall2_lookup_lr _ _ _ _ _ _ Hc Hx Hgi) as (tx & tg & Htx & Htg & Hs).
    unfold compose, product_at. simpl. rewrite Htx, Htg. simpl. rewrite Hs.
    destruct (tensor_product_shape emul (shape tx) (elems tx) (elems tg))
      as [d ->]. by eexists. }
  destruct (attribute_run emul grad_enabled self inputs target args s h2 gs news Hv Hg Hv2 Hnews)
    as (r & Hrun & Hr). fold ins in Hrun, Hr.
  assert (∃ res, r = Ok res) as [res ->].
  { rewrite <- (Hr s). unfold _format_attributions, bind, emit, ret. simpl.
    destruct inputs as [x|ts]; simpl; [|eauto].
    subst ins. simpl in *. destruct gs as [|g [|]]; try done. simpl. eauto. }
  eexists _, res. split; [exact Hrun|].
  destruct (attribute_ok_inv emul grad_enabled _ _ _ _ _ _ _ Hrun)
    as (h2o & gso & newso & _ & _ & _ & _ & _ & _ & Htag).
  split; [done|].
  destruct (attribute_products emul grad_enabled _ _ _ _ _ _ _ Hrun)
    as (h2' & gs' & Hg' & Hlen' & Hall).
  fold ins in Hg', Hlen', Hall. rewrite Hg in Hg'. injection Hg' as <- <-.
  apply Forall2_same_length_lookup_2.
  { rewrite Hlen'. lia. }
  intros i x a Hx Ha.
  destruct (Hall i a Ha)
    as (x' & g & tx & tg & ta & Hx' & Hgi & Htx & Htg & Hta & _ & Hp).
  rewrite Hx in Hx'. injection Hx' as <-.
  exists tx, ta. split_and!; [done|done|].
  simpl in Htx, Htg.
  apply reset_off_data_inv in Htx as (tx0 & Htx0 & Hsx & _).
  apply reset_off_data_inv in Htg as (tg0 & Htg0 & Hsg & _).
  destruct (Forall2_lookup_lr _ _ _ _ _ _ Hc Hx Hgi) as (tx1 & tg1 & Htx1 & Htg1 & Hs).
  rewrite (lookup_app_l_Some _ _ _ _ Htx1) in Htx0.
  rewrite (lookup_app_l_Some _ _ _ _ Htg1) in Htg0.
  injection Htx0 as <-. injection Htg0 as <-.
  assert (shape tg = shape tx) as Heq by congruence.
  rewrite Heq in Hp.
  destruct (tensor_product_shape emul (shape tx) (elems tx) (elems tg)) as [d Hd].
  rewrite Hd in Hp. by injection Hp as <- _.
Qed.
(** C6.  On existing inputs a call comes down to one application of the
    gradient capability, to the forward function of the object, the
    normalised inputs, and the caller's [target] and
    [additional_forward_args] as they were given, in that order: what
    the capability raises there is what the call raises, and the
    gradients it returns there, on the heap it leaves, are what is
    multiplied.  The application is recorded once, after the two first
    steps.  On the heap it is applied to, tracking was forced on for the
    inputs and for nothing else: no other tensor, in the additional
    arguments or elsewhere, was made differentiable. *)
Theorem attribute_forwards_target_and_arguments
    (self : IXG) inputs target args (s : state) :
  valid_refs (st_heap s) (inputs_list inputs) →
  ∃ h1 rest,
    st_trace (attribute emul grad_enabled self inputs target args s).1
    = st_trace s
        ++ [EvFormatInput inputs;
            EvApplyGradientRequirements (inputs_list inputs);
            EvGradientFunc (forward_func self) (inputs_list inputs)
              target args h1]
        ++ rest
    ∧ (∀ ev, ev ∈ rest → stage_of ev ≠ ComputeGradient)
    ∧ (∀ l, h1 !! l
            = if decide (l ∈ inputs_list inputs)
              then with_requires_grad true <$> st_heap s !! l
              else st_heap s !! l)
    ∧ (∀ s' res,
         attribute emul grad_enabled self inputs target args s = (s', Ok res) →
         ∃ h2 gs,
           gradient_func self (forward_func self) (inputs_list inputs)
             target args h1 = (h2, Ok gs)
           ∧ length (result_list res)
             = length (inputs_list inputs) `min` length gs)
    ∧ attribute emul grad_enabled self inputs target args s
      = match gradient_func self (forward_func self) (inputs_list inputs)
                target args h1 with
        | (h2, Raise e) =>
            (State h2
               (st_trace s
                  ++ [EvFormatInput inputs;
                      EvApplyGradientRequirements (inputs_list inputs);
                      EvGradientFunc (forward_func self) (inputs_list inputs)
                        target args h1]),
             Raise e)
        | (h2, Ok gs) =>
            bind (tuple_of
                    (λ '(input, gradient),
                       tensor_mul emul grad_enabled input gradient)
                    (zip (inputs_list inputs) gs))
              (λ attributions,
                 bind (undo_gradient_requirements (inputs_list inputs)
                         (captured_mask (inputs_list inputs) (st_heap s)))
                   (λ _, _format_attributions (isinstance_tuple inputs)
                           attributions))
              (State h2
                 (st_trace s
                    ++ [EvFormatInput inputs;
                        EvApplyGradientRequirements (inputs_list inputs);
                        EvGradientFunc (forward_func self) (inputs_list inputs)
                          target args h1]))
        end.
Proof.
  intros Hv.
  destruct (attribute_trace emul grad_enabled self inputs target args s)
    as (grad & pairs & tail & Htr & Hgrad & Htail & _).
  destruct Hgrad as [(_ & _ & _ & Hnv)|[-> _]]; [done|].
  exists (force_on (inputs_list inputs) (st_heap s)),
    ((uncurry EvMul <$> pairs) ++ tail).
  split_and!.
  - by rewrite Htr.
  - intros ev [Hin|Hin]%elem_of_app.
    + apply list_elem_of_fmap in Hin as ([x g] & -> & _). done.
    + destruct Htail as [->|[[mask ->]|(mask & attrs & ->)]].
      * by apply elem_of_nil in Hin.
      * by apply list_elem_of_singleton in Hin as ->.
      * apply elem_of_cons in Hin as [->|Hin]; [done|].
        by apply list_elem_of_singleton in Hin as ->.
  - intros l. apply force_on_lookup.
  - intros s' res H.
    destruct (attribute_products emul grad_enabled _ _ _ _ _ _ _ H)
      as (h2 & gs & Hg & Hlen & _).
    eauto.
  - by apply attribute_at_gradient_call.
Qed.

(** C7, as amended.  Every call runs the steps of one pipeline in this
    order: normalise, enable gradient tracking, call the gradient
    capability once, multiply pair after pair, restore gradient
    tracking, denormalise.  It stops at the first step that raises and
    raises what that step raised: after the enabling step, after the
    gradient call, after the multiplication that failed, after the
    restoring step.  When none of these raises the whole pipeline is
    run, the tuple tag decided at entry is given to the last step, and
    what the last step returns or raises is the outcome of the call. *)
Theorem attribute_runs_one_linear_pipeline
    (self : IXG) inputs target args (s : state) :
  let ins := inputs_list inputs in
  let call := attribute emul grad_enabled self inputs target args s in
  ∃ evs,
    st_trace call.1 = st_trace s ++ evs
    ∧ match apply_gradient_requirements ins
              (State (st_heap s) (st_trace s ++ [EvFormatInput inputs])) with
      | (s2, Raise e) =>
          call = (s2, Raise e)
          ∧ stage_of <$> evs = [Normalize; EnableGrad]
      | (s2, Ok mask) =>
          let s3 h3 :=
            State h3 (st_trace s2
                        ++ [EvGradientFunc (forward_func self) ins target args
                              (st_heap s2)]) in
          match gradient_func self (forward_func self) ins target args
                  (st_heap s2) with
          | (h3, Raise e) =>
              call = (s3 h3, Raise e)
              ∧ stage_of <$> evs = [Normalize; EnableGrad; ComputeGradient]
          | (h3, Ok gs) =>
              let n := length ins `min` length gs in
              match tuple_of
                      (λ '(input, gradient),
                         tensor_mul emul grad_enabled input gradient)
                      (zip ins gs) (s3 h3) with
              | (s4, Raise e) =>
                  call = (s4, Raise e)
                  ∧ ∃ k, 1 ≤ k ≤ n
                         ∧ stage_of <$> evs
                           = [Normalize; EnableGrad; ComputeGradient]
                               ++ replicate k Multiply
              | (s4, Ok attributions) =>
                  match undo_gradient_requirements ins mask s4 with
                  | (s5, Raise e) =>
                      call = (s5, Raise e)
                      ∧ stage_of <$> evs
                        = [Normalize; EnableGrad; ComputeGradient]
                            ++ replicate n Multiply ++ [RestoreGrad]
                  | (s5, Ok _) =>
                      call = _format_attributions (isinstance_tuple inputs)
                               attributions s5
                      ∧ stage_of <$> evs = pipeline n
                      ∧ evs = events_of_call self inputs target args
                                (st_heap s) gs attributions
                  end
              end
          end
      end.
Proof.
  intros ins call. subst call. destruct s as [h tr]. simpl.
  unfold attribute. rewrite bind_format_input. simpl. fold ins.
  destruct (apply_gradient_requirements ins _) as [s2 [mask|e]] eqn:E2;
    last first.
  { rewrite (bind_raise _ _ _ _ _ E2).
    apply apply_gradient_requirements_trace in E2 as Htr2. simpl in *.
    rewrite Htr2.
    eexists. split; [by rewrite <- (assoc_L (++))|]. by split. }
  rewrite (bind_ok _ _ _ _ _ E2).
  apply apply_gradient_requirements_ok in E2 as (Hv & -> & ->). simpl.
  rewrite bind_call_gradient_func. simpl.
  destruct (gradient_func self _ _ _ _ _) as [h3 [gs|e]] eqn:Hg; last first.
  { eexists. split; [by rewrite <- !(assoc_L (++))|]. by split. }
  destruct (tuple_of _ (zip ins gs) _) as [s4 [attrs|e]] eqn:E4; last first.
  { rewrite (bind_raise _ _ _ _ _ E4).
    apply products_raise_trace in E4 as (k & Hk & Htr4). simpl in *.
    rewrite Htr4.
    eexists. split; [by rewrite <- !(assoc_L (++))|]. split; [done|].
    exists k. rewrite length_zip in Hk. split; [done|]. simpl. do 3 f_equal.
    rewrite stage_of_muls, length_take. f_equal. rewrite length_zip. lia. }
  rewrite (bind_ok _ _ _ _ _ E4).
  apply products_ok_inv in E4 as (news & -> & -> & _). simpl.
  destruct (undo_gradient_requirements ins _ _) as [s5 [[]|e]] eqn:E5;
    apply undo_gradient_requirements_trace in E5 as Htr5; simpl in Htr5.
  - rewrite (bind_ok _ _ _ _ _ E5).
    destruct (_format_attributions _ _ s5) as [s6 r6] eqn:E6.
    apply _format_attributions_trace in E6 as ->. simpl. rewrite Htr5.
    eexists. split; [by rewrite <- !(assoc_L (++))|].
    split_and!; [done| |done].
    unfold pipeline. simpl. do 3 f_equal.
    by rewrite fmap_app, stage_of_muls, length_zip.
  - rewrite (bind_raise _ _ _ _ _ E5). simpl. rewrite Htr5.
    eexists. split; [by rewrite <- !(assoc_L (++))|]. split; [done|].
    simpl. do 3 f_equal.
    by rewrite fmap_app, stage_of_muls, length_zip.
Qed.

(** C9.  A call that returns normally, the gradient capability having
    left the objects alone, leaves every tensor that existed before the
    call exactly as it was, shape, elements and flag.  While the
    capability ran the heap differed from the caller's only by the flags
    of the inputs, forced on.  Each attribution is a new object: it did
    not exist before the call, is none of the inputs and none of the
    other attributions. *)
Theorem attribute_only_toggles_flags
    (self : IXG) inputs target args (s s' : state) res :
  preserves_objects self →
  attribute emul grad_enabled self inputs target args s = (s', Ok res) →
  (∀ l t, st_heap s !! l = Some t → st_heap s' !! l = Some t)
  ∧ (∃ h1, EvGradientFunc (forward_func self) (inputs_list inputs)
             target args h1 ∈ st_trace s'
           ∧ ∀ l, h1 !! l
                  = if decide (l ∈ inputs_list inputs)
                    then with_requires_grad true <$> st_heap s !! l
                    else st_heap s !! l)
  ∧ NoDup (result_list res)
  ∧ (∀ a, a ∈ result_list res →
       st_heap s !! a = None ∧ is_Some (st_heap s' !! a)
       ∧ a ∉ inputs_list inputs).
Proof.
  intros Hp H. split_and!.
  - by eapply attribute_frame.
  - destruct (attribute_ok_inv emul grad_enabled _ _ _ _ _ _ _ H)
      as (h2 & gs & news & _ & _ & _ & _ & Htr & _ & _).
    exists (force_on (inputs_list inputs) (st_heap s)). split.
    + rewrite Htr. unfold events_of_call. apply elem_of_app. right.
      apply elem_of_app. left. do 2 right. left.
    + intros l. apply force_on_lookup.
  - destruct (attribute_ok_inv emul grad_enabled _ _ _ _ _ _ _ H)
      as (h2 & gs & news & _ & _ & _ & _ & _ & -> & _).
    apply NoDup_seq.
  - intros a [i Hi]%list_elem_of_lookup_1.
    destruct (attribute_products emul grad_enabled _ _ _ _ _ _ _ H) as (h2 & gs & Hg & _ & Hall).
    destruct (Hall i a Hi) as (x & g & tx & tg & ta & _ & _ & _ & _ & Hta & Hge & _).
    destruct (attribute_ok_inv emul grad_enabled _ _ _ _ _ _ _ H)
      as (h2' & gs' & news & Hv & Hg' & _).
    rewrite Hg in Hg'. injection Hg' as <- <-.
    apply Hp, prefix_length in Hg. rewrite force_on_length in Hg.
    split_and!.
    + apply lookup_ge_None. lia.
    + by eexists.
    + intros Hin. unfold valid_refs in Hv. rewrite Forall_forall in Hv.
      specialize (Hv a Hin). lia.
Qed.

(** C10, as amended.  Inputs and gradients are paired up to the shorter
    of the two.  On existing inputs that the gradient capability left in
    place, every paired product being defined, a call on a tuple raises
    no error and returns as many attributions as the shorter has
    elements; so does a call on a single tensor when at least one
    gradient is returned.  A call on a single tensor for which no
    gradient is returned raises: there is no single element to return. *)
Theorem attribute_pairs_up_to_the_shorter
    (self : IXG) inputs target args (s : state) h2 gs news :
  valid_refs (st_heap s) (inputs_list inputs) →
  gradient_func self (forward_func self) (inputs_list inputs) target args
    (force_on (inputs_list inputs) (st_heap s)) = (h2, Ok gs) →
  valid_refs h2 (inputs_list inputs) →
  mapM (product_at emul grad_enabled h2) (zip (inputs_list inputs) gs) = Some news →
  ∃ s' r,
    attribute emul grad_enabled self inputs target args s = (s', r)
    ∧ if isinstance_tuple inputs || bool_decide (gs ≠ [])
      then ∃ res, r = Ok res
                  ∧ result_is_tuple res = isinstance_tuple inputs
                  ∧ length (result_list res)
                    = length (inputs_list inputs) `min` length gs
      else ∃ e, r = Raise e.
Proof.
  intros Hv Hg Hv2 Hnews.
  destruct (attribute_run emul grad_enabled self inputs target args s h2 gs news Hv Hg Hv2 Hnews)
    as (r & Hrun & Hr).
  eexists _, r. split; [exact Hrun|].
  rewrite <- (Hr s). unfold _format_attributions, bind, emit, ret, raise. simpl.
  destruct inputs as [x|ts]; simpl.
  - destruct gs as [|g gs]; simpl; [eauto|]. eexists. by split_and!.
  - eexists. split_and!; [done|done|]. simpl. by rewrite length_seq, length_zip.
Qed.
End Properties.

(** ** IEEE 754 elements: a zero gradient *)

Section ZeroGradient.
Import IEEE754.
Context {Forward Target Args : Type}.
Variables prec emax : Z.
Variable grad_enabled : bool.

Local Abbreviation all_zero := (Forall (λ v, is_zero v = true)).
Local Abbreviation all_finite := (Forall (λ v, is_finite v = true)).

Lemma SFmul_finite_zero x z :
  is_finite x = true → is_zero z = true →
  is_zero (SFmul prec emax x z) = true.
Proof. by destruct x, z. Qed.

Lemma zip_with_finite_zero la lb :
  all_finite la → all_zero lb → all_zero (zip_with (SFmul prec emax) la lb).
Proof.
  intros Ha. revert lb. induction Ha as [|x la Hx Ha IH]; intros lb Hb.
  { constructor. }
  destruct Hb as [|z lb Hz Hb]; simpl; [constructor|].
  constructor; [by apply SFmul_finite_zero|by apply IH].
Qed.

Lemma chunks_Forall {A} (P : A → Prop) n k l :
  Forall P l → Forall (Forall P) (chunks n k l).
Proof.
  revert l. induction k as [|k IH]; intros l Hl; simpl; constructor.
  - by apply Forall_take.
  - by apply IH, Forall_drop.
Qed.

Lemma Forall_concat_2 {A} (P : A → Prop) (ls : list (list A)) :
  Forall (Forall P) ls → Forall P (concat ls).
Proof.
  induction 1 as [|l ls Hl _ IH]; simpl; [constructor|].
  by apply Forall_app.
Qed.

(** Broadcasting only repeats elements. *)
Lemma expand_Forall {A} (P : A → Prop) s o (l : list A) :
  Forall P l → Forall P (expand s o l).
Proof.
  revert o l. induction s as [|d s IH]; intros o l Hl; [done|].
  destruct o as [|e o]; [done|]. simpl.
  assert (Forall P (concat (map (expand s o) (chunks (numel s) d l)))) as Hp.
  { apply Forall_concat_2, Forall_fmap.
    eapply Forall_impl; [by apply chunks_Forall|]. intros c Hc. by apply IH. }
  destruct (d =? e); [done|].
  by apply Forall_concat_2, Forall_replicate.
Qed.

End ZeroGradient.

(** ** The properties on concrete calls *)

Section Concrete.
Import IEEE754 Float32 Examples.

(** Broadcasting: a row against a matrix, a column against a row, and
    two shapes that do not fit. *)
Example broadcast_row :
  tensor_product Z.mul [2; 3] [1; 2; 3; 4; 5; 6]%Z [3] [10; 20; 30]%Z
  = Some ([2; 3], [10; 40; 90; 40; 100; 180]%Z).
Proof. reflexivity. Qed.

Example broadcast_column :
  tensor_product Z.mul [2; 1] [1; 2]%Z [1; 3] [10; 20; 30]%Z
  = Some ([2; 3], [10; 20; 30; 20; 40; 60]%Z).
Proof. reflexivity. Qed.

Example broadcast_mismatch :
  tensor_product Z.mul [2; 3] [1; 2; 3; 4; 5; 6]%Z [2] [10; 20]%Z = None.
Proof. reflexivity. Qed.

(** The example of the documentation gives the attribution [[1, 2, 3]]. *)
Example sum_call_attribution :
  sum_call.2 = Ok (ResTensor 2)
  ∧ elems <$> st_heap sum_call.1 !! 2 = Some (of_Z <$> [1; 2; 3]%Z).
Proof. by vm_compute. Qed.

(** C1 fails as stated: the gradient capability raises, the call raises,
    and the input tensor, untracked before the call, is left tracked. *)
Lemma failing_call_leaves_flag_on :
  failing_call.2 = Raise no_target
  ∧ flag (st_heap (start [x123])) 0 = Some false
  ∧ flag (st_heap failing_call.1) 0 = Some true.
Proof. by vm_compute. Qed.

(** A tensor given twice, untracked before the call, is untracked after. *)
Lemma attribute_restores_flags_on_normal_return_witness :
  flag (st_heap shared_call.1) 0 = Some false.
Proof.
  refine (proj1 (attribute_restores_flags_on_normal_return mul true pair_engine
                   (PyTuple [0; 0]) None [] (start [x123]) _ _)
            shared_call.1 (ResTuple [3; 4]) _ 0 false _).
  - apply constant_gradients_preserves_objects.
  - repeat constructor.
  - by vm_compute.
  - reflexivity.
Defined.


(** Two inputs and a single gradient returned: the pairs stop at the
    shorter of the two. *)
Example short_call_returns_shorter_tuple :
  short_call.2 = Ok (ResTuple [3])
  ∧ length (inputs_list (PyTuple [0; 1])) = 2
  ∧ length (result_list (ResTuple [3])) = 1.
Proof. by vm_compute. Qed.

(** The same tensor given twice, two gradients returned: a tuple of two. *)
Lemma attribute_mirrors_input_form_witness :
  ∃ s' attrs, shared_call = (s', Ok (ResTuple attrs)) ∧ length attrs = 2.
Proof.
  pose proof (attribute_mirrors_input_form mul true pair_engine
                (PyTuple [0; 0]) None [] (start [x123])) as [Hform Hret].
  destruct (Hret [with_requires_grad true x123; ones3; ones3] [1; 2]
              [with_requires_grad true x123; with_requires_grad true x123])
    as (s' & res & H).
  - repeat constructor.
  - reflexivity.
  - reflexivity.
  - repeat constructor.
  - by vm_compute.
  - destruct (Hform s' res H) as (h2 & gs & Hg & Hm).
    injection Hg as <- <-. destruct res as [a|attrs]; [done|].
    exists s', attrs. split; [exact H|]. by apply Hm.
Defined.

Lemma attribute_propagates_exceptions_witness :
  failing_call = (State [with_requires_grad true x123]
                    [EvFormatInput (PyTensor 0);
                     EvApplyGradientRequirements [0];
                     EvGradientFunc "sum"%string [0] None []
                       [with_requires_grad true x123]],
                  Raise no_target).
Proof.
  apply (attribute_propagates_exceptions mul true failing_engine (PyTensor 0) None []
           (start [x123])).
  by apply (gradient_func_raises mul true failing_engine (PyTensor 0) None []
              (start [x123])
              (State [x123] [EvFormatInput (PyTensor 0)]) [0]
              (State [with_requires_grad true x123]
                 [EvFormatInput (PyTensor 0); EvApplyGradientRequirements [0]])
              [false]).
Defined.

Lemma attribute_preserves_count_order_and_shape_witness :
  ∃ s' res,
    sum_call = (s', Ok res)
    ∧ result_is_tuple res = false
    ∧ Forall2 (λ x a, ∃ tx ta, st_heap s' !! x = Some tx
                                ∧ st_heap s' !! a = Some ta
                                ∧ shape ta = shape tx)
        [0] (result_list res).
Proof.
  apply (attribute_preserves_count_order_and_shape mul true sum_engine (PyTensor 0)
           (Some 4) [7%Z] (start [x123])
           [with_requires_grad true x123; ones3] [1]).
  - repeat constructor.
  - reflexivity.
  - repeat constructor. by eexists _, _.
Defined.

Lemma attribute_forwards_target_and_arguments_witness :
  ∃ h1 rest,
    st_trace sum_call.1
    = [EvFormatInput (PyTensor 0); EvApplyGradientRequirements [0];
       EvGradientFunc "sum"%string [0] (Some 4) [7%Z] h1] ++ rest
    ∧ flag h1 0 = Some true.
Proof.
  destruct (attribute_forwards_target_and_arguments mul true sum_engine (PyTensor 0)
              (Some 4) [7%Z] (start [x123]))
    as (h1 & rest & Htr & _ & Hh1 & _).
  { repeat constructor. }
  exists h1, rest. split; [exact Htr|].
  unfold flag. by rewrite (Hh1 0).
Defined.

(** C7 fails as stated: the gradient capability raises, and the call
    stops after the gradient call; nothing is multiplied, restored or
    denormalised. *)
Lemma failing_call_stops_after_the_gradient_call :
  failing_call.2 = Raise no_target
  ∧ stage_of <$> st_trace failing_call.1
    = [Normalize; EnableGrad; ComputeGradient]
  ∧ ¬ ∃ n, stage_of <$> st_trace failing_call.1 = pipeline n.
Proof.
  assert (stage_of <$> st_trace failing_call.1
          = [Normalize; EnableGrad; ComputeGradient]) as Hst by (by vm_compute).
  split_and!; [by vm_compute|exact Hst|].
  intros [n Hn]. rewrite Hst in Hn. apply (f_equal length) in Hn.
  unfold pipeline in Hn. rewrite !length_app, length_replicate in Hn.
  simpl in Hn. lia.
Qed.

(** The example of the documentation runs the whole pipeline, with one
    multiplication. *)
Lemma attribute_runs_one_linear_pipeline_witness :
  stage_of <$> st_trace sum_call.1 = pipeline 1.
Proof.
  destruct (attribute_runs_one_linear_pipeline mul true sum_engine (PyTensor 0)
              (Some 4) [7%Z] (start [x123])) as (evs & Htr & Hm).
  simpl in Htr. vm_compute in Hm. destruct Hm as (_ & Hst & _).
  etrans; [|exact Hst]. f_equal. exact Htr.
Defined.



Lemma attribute_only_toggles_flags_witness :
  st_heap shared_call.1 !! 0 = Some x123.
Proof.
  refine (proj1 (attribute_only_toggles_flags mul true pair_engine
                   (PyTuple [0; 0]) None [] (start [x123])
                   shared_call.1 (ResTuple [3; 4]) _ _) 0 x123 _).
  - apply constant_gradients_preserves_objects.
  - by vm_compute.
  - reflexivity.
Defined.

(** C10 fails as stated: one input, no gradient returned, and the call
    raises. *)
Lemma empty_call_raises :
  length (inputs_list (PyTensor 0)) = 1
  ∧ gradient_func empty_engine (forward_func empty_engine) [0] None []
      (force_on [0] [x123]) = ([with_requires_grad true x123], Ok [])
  ∧ empty_call.2
    = Raise (AssertionError
               "The input is a single tensor however the attributions aren't").
Proof. by vm_compute. Qed.

Lemma attribute_pairs_up_to_the_shorter_witness :
  ∃ s' r,
    short_call = (s', r)
    ∧ ∃ res, r = Ok res
             ∧ result_is_tuple res = true
             ∧ length (result_list res) = 2 `min` 1.
Proof.
  apply (attribute_pairs_up_to_the_shorter mul true sum_engine (PyTuple [0; 1])
           None [] (start [x123; y45])
           [with_requires_grad true x123; y45; ones3] [2]
           [Tensor [1; 3] (of_Z <$> [1; 2; 3]%Z) true]).
  - repeat constructor.
  - reflexivity.
  - repeat constructor.
  - by vm_compute.
Defined.
End Concrete.

(** ** Facts for the further properties *)

Section MoreFacts.
Context {elt Forward Target Args : Type}.
Variable emul : elt → elt → elt.
Variable grad_enabled : bool.

Local Abbreviation state := (state elt Forward Target Args).
Local Abbreviation M := (@M elt Forward Target Args).
Local Abbreviation IXG := (InputXGradient elt Forward Target Args).
Local Abbreviation products :=
  (tuple_of (λ '(input, gradient), tensor_mul emul grad_enabled input gradient)).

(** *** Computations that ignore the trace *)

Lemma same_run_refl {A} (r : state * outcome A) : same_run r r.
Proof. by split. Qed.

Lemma ignores_trace_ret {A} (a : A) : ignores_trace (ret a : M A).
Proof. by intros s1 s2 Hs. Qed.

Lemma ignores_trace_raise {A} e : ignores_trace (raise e : M A).
Proof. by intros s1 s2 Hs. Qed.

Lemma ignores_trace_emit ev : ignores_trace (emit ev : M unit).
Proof. by intros s1 s2 Hs. Qed.

Lemma ignores_trace_bind {A B} (m : M A) (k : A → M B) :
  ignores_trace m → (∀ a, ignores_trace (k a)) → ignores_trace (bind m k).
Proof.
  intros Hm Hk s1 s2 Hs. unfold bind.
  destruct (Hm s1 s2 Hs) as [Hh Hr].
  destruct (m s1) as [s1' r1], (m s2) as [s2' r2]. simpl in *. subst r2.
  destruct r1; [by apply Hk|by split].
Qed.

Lemma ignores_trace_deref l : ignores_trace (deref l : M (tensor elt)).
Proof.
  intros s1 s2 Hs. unfold deref. rewrite Hs.
  by destruct (st_heap s2 !! l).
Qed.

Lemma ignores_trace_set_requires_grad l b :
  ignores_trace (set_requires_grad l b : M unit).
Proof.
  intros s1 s2 Hs. unfold set_requires_grad, bind, deref. rewrite Hs.
  destruct (st_heap s2 !! l); [|done]. split; simpl; [|done]. by rewrite Hs.
Qed.

Lemma ignores_trace_alloc t : ignores_trace (alloc t : M loc).
Proof. intros s1 s2 Hs. unfold alloc. split; simpl; by rewrite Hs. Qed.

Lemma ignores_trace_tuple_of {A B} (f : A → M B) it :
  (∀ x, ignores_trace (f x)) → ignores_trace (tuple_of f it).
Proof.
  intros Hf. induction it as [|x it IH]; simpl; [apply ignores_trace_ret|].
  apply ignores_trace_bind; [done|]. intros y.
  apply ignores_trace_bind; [done|]. intros ys. apply ignores_trace_ret.
Qed.

Lemma ignores_trace_tensor_mul x g : ignores_trace (tensor_mul emul grad_enabled x g : M loc).
Proof.
  unfold tensor_mul.
  apply ignores_trace_bind; [apply ignores_trace_emit|]. intros _.
  apply ignores_trace_bind; [apply ignores_trace_deref|]. intros a.
  apply ignores_trace_bind; [apply ignores_trace_deref|]. intros b.
  destruct (tensor_product _ _ _ _ _) as [[sh d]|];
    [apply ignores_trace_alloc|apply ignores_trace_raise].
Qed.

Lemma ignores_trace_products pairs :
  ignores_trace (products pairs : M (list loc)).
Proof.
  apply ignores_trace_tuple_of. intros [x g]. apply ignores_trace_tensor_mul.
Qed.

Lemma ignores_trace_apply_gradient_requirements ins :
  ignores_trace (apply_gradient_requirements ins : M (list bool)).
Proof.
  unfold apply_gradient_requirements.
  apply ignores_trace_bind; [apply ignores_trace_emit|]. intros _.
  induction ins as [|l ins IH]; simpl; [apply ignores_trace_ret|].
  apply ignores_trace_bind; [apply ignores_trace_deref|]. intros t.
  apply ignores_trace_bind; [apply ignores_trace_set_requires_grad|]. intros _.
  apply ignores_trace_bind; [done|]. intros mask. apply ignores_trace_ret.
Qed.

Lemma ignores_trace_undo_gradient_requirements ins mask :
  ignores_trace (undo_gradient_requirements ins mask : M unit).
Proof.
  unfold undo_gradient_requirements.
  apply ignores_trace_bind; [apply ignores_trace_emit|]. intros _.
  induction (zip ins mask) as [|[l m] pairs IH]; simpl; [apply ignores_trace_ret|].
  apply ignores_trace_bind; [|done].
  destruct m; [apply ignores_trace_ret|apply ignores_trace_set_requires_grad].
Qed.

Lemma ignores_trace__format_attributions tag attrs :
  ignores_trace (_format_attributions tag attrs : M pyresult).
Proof.
  unfold _format_attributions.
  apply ignores_trace_bind; [apply ignores_trace_emit|]. intros _.
  destruct tag; [apply ignores_trace_ret|].
  destruct attrs as [|a [|]];
    [apply ignores_trace_raise|apply ignores_trace_ret|apply ignores_trace_raise].
Qed.

Lemma ignores_trace_call_gradient_func (self : IXG) f ins t a :
  ignores_trace (call_gradient_func self f ins t a).
Proof.
  intros s1 s2 Hs. unfold call_gradient_func. rewrite Hs.
  by destruct (gradient_func self f ins t a (st_heap s2)).
Qed.

(** What follows the gradient call: multiply, restore, denormalise. *)
Lemma ignores_trace_after_gradients tag ins mask gs :
  ignores_trace
    (bind (products (zip ins gs))
       (λ attributions,
          bind (undo_gradient_requirements ins mask)
            (λ _, _format_attributions tag attributions))
     : M pyresult).
Proof.
  apply ignores_trace_bind; [apply ignores_trace_products|]. intros attrs.
  apply ignores_trace_bind; [apply ignores_trace_undo_gradient_requirements|].
  intros _. apply ignores_trace__format_attributions.
Qed.

(** What follows the normalisation of [inputs]. *)
Lemma ignores_trace_after_format_input (self : IXG) tag ins target args :
  ignores_trace
    (bind (apply_gradient_requirements ins)
       (λ mask,
          bind (call_gradient_func self (forward_func self) ins target args)
            (λ gs,
               bind (products (zip ins gs))
                 (λ attributions,
                    bind (undo_gradient_requirements ins mask)
                      (λ _, _format_attributions tag attributions))))
     : M pyresult).
Proof.
  apply ignores_trace_bind; [apply ignores_trace_apply_gradient_requirements|].
  intros mask.
  apply ignores_trace_bind; [apply ignores_trace_call_gradient_func|].
  intros gs. apply ignores_trace_after_gradients.
Qed.
(** Two binds on one first part agree when their second parts agree
    on what the first part returns. *)
Lemma bind_congr {A B} (m : M A) (k k' : A → M B) s :
  (∀ a s1, m s = (s1, Ok a) → k a s1 = k' a s1) →
  bind m k s = bind m k' s.
Proof. intros H. unfold bind. destruct (m s) as [s1 [a|e]]; [by apply H|done]. Qed.

Lemma bind_same_run {A B} (m : M A) (k k' : A → M B) s :
  (∀ a s1, m s = (s1, Ok a) → same_run (k a s1) (k' a s1)) →
  same_run (bind m k s) (bind m k' s).
Proof.
  intros H. unfold bind.
  destruct (m s) as [s1 [a|e]]; [by apply H|apply same_run_refl].
Qed.

(** Two binds on one first part that ignores the trace, started on one
    heap, are related when their second parts are. *)
Lemma bind_related {A B} (m : M A) (k k' : A → M B)
    (R : state * outcome B → state * outcome B → Prop) s1 s2 :
  ignores_trace m → st_heap s1 = st_heap s2 →
  (∀ a s1' s2', st_heap s1' = st_heap s2' → R (k a s1') (k' a s2')) →
  (∀ e s1' s2', st_heap s1' = st_heap s2' → R (s1', Raise e) (s2', Raise e)) →
  R (bind m k s1) (bind m k' s2).
Proof.
  intros Hm Hs Hk He. unfold bind. destruct (Hm s1 s2 Hs) as [Hh Hr].
  destruct (m s1) as [s1' r1], (m s2) as [s2' r2]. simpl in *. subst r2.
  destruct r1; [by apply Hk|by apply He].
Qed.

(** Tracking was forced on when the flags helper returned normally. *)
Lemma apply_gradient_requirements_ok_inv ins (s s' : state) mask :
  apply_gradient_requirements ins s = (s', Ok mask) →
  valid_refs (st_heap s) ins ∧ st_heap s' = force_on ins (st_heap s).
Proof.
  unfold apply_gradient_requirements, bind, emit. simpl. intros H.
  pose proof (require_each_ok_inv _ _ _ _ H) as Hv. simpl in Hv.
  rewrite require_each_run in H by done. by injection H as <- _.
Qed.

(** *** Heaps of runs that may fail *)

Lemma only_flags_forced_refl ls (h : heap elt) : only_flags_forced ls h h.
Proof. intros l t Ht. exists t. auto. Qed.

Lemma only_flags_forced_trans ls (h1 h2 h3 : heap elt) :
  only_flags_forced ls h1 h2 → only_flags_forced ls h2 h3 →
  only_flags_forced ls h1 h3.
Proof.
  intros H12 H23 l t Ht.
  destruct (H12 l t Ht) as (t2 & Ht2 & Hs2 & He2 & Hf2).
  destruct (H23 l t2 Ht2) as (t3 & Ht3 & Hs3 & He3 & Hf3).
  exists t3. split_and!; [done|congruence|congruence|].
  destruct Hf3 as [Hf3|Hf3]; [|by right].
  destruct Hf2 as [Hf2|[Hin Hf2]]; [left|right]; [|split; [done|]]; congruence.
Qed.

Lemma only_flags_forced_prefix ls (h h' : heap elt) :
  h `prefix_of` h' → only_flags_forced ls h h'.
Proof.
  intros Hp l t Ht. exists t. split_and!; try done; [|by left].
  by eapply prefix_lookup_Some.
Qed.

Lemma only_flags_forced_set_flag ls l (h : heap elt) :
  l ∈ ls → only_flags_forced ls h (set_flag true l h).
Proof.
  intros Hin j t Ht. rewrite set_flag_lookup, Ht.
  case_decide as E; [subst|exists t; auto]. simpl.
  eexists. split_and!; [done|done|done|]. by right.
Qed.

Lemma only_flags_forced_force_on ls (h : heap elt) :
  only_flags_forced ls h (force_on ls h).
Proof.
  intros j t Ht. rewrite force_on_lookup, Ht.
  case_decide as E; [|exists t; auto]. simpl.
  eexists. split_and!; [done|done|done|]. by right.
Qed.

(** Forcing the flags on, completed or cut short by a reference to
    nothing, changes flags only, on the tensors reached, to on. *)
Lemma require_each_heap ls0 ls (s s' : state) r :
  ls ⊆ ls0 →
  require_each ls s = (s', r) →
  only_flags_forced ls0 (st_heap s) (st_heap s').
Proof.
  revert s s' r. induction ls as [|l ls IH]; intros s s' r Hsub H; simpl in H.
  { injection H as <- _. apply only_flags_forced_refl. }
  unfold bind at 1 in H. unfold deref at 1 in H.
  destruct (st_heap s !! l) as [t|] eqn:E;
    [|injection H as <- _; apply only_flags_forced_refl].
  unfold bind at 1 in H.
  rewrite set_requires_grad_run in H by (by eapply lookup_lt_Some).
  unfold bind at 1 in H.
  destruct (require_each ls _) as [s1 r1] eqn:E1.
  apply IH in E1; [|by intros j Hj; apply Hsub; right]. simpl in E1.
  assert (s' = s1) as -> by (by destruct r1; injection H as <- _).
  eapply only_flags_forced_trans; [|exact E1].
  apply only_flags_forced_set_flag. apply Hsub. by left.
Qed.

Lemma tensor_mul_heap x g (s s' : state) r :
  tensor_mul emul grad_enabled x g s = (s', r) → st_heap s `prefix_of` st_heap s'.
Proof.
  unfold tensor_mul, bind, emit, deref, alloc, raise. simpl.
  destruct (st_heap s !! x) as [ta|]; simpl; [|by intros [= <- _]].
  destruct (st_heap s !! g) as [tb|]; simpl; [|by intros [= <- _]].
  destruct (tensor_product _ _ _ _ _) as [[sh d]|]; simpl; intros [= <- _];
    simpl; [by apply prefix_app_r|done].
Qed.

(** The loop of products only appends to the heap, whatever its outcome. *)
Lemma products_heap pairs (s s' : state) r :
  products pairs s = (s', r) → st_heap s `prefix_of` st_heap s'.
Proof.
  revert s s' r. induction pairs as [|[x g] pairs IH]; intros s s' r H;
    simpl in H.
  { by injection H as <- _. }
  unfold bind at 1 in H.
  destruct (tensor_mul emul grad_enabled x g s) as [s1 [a|e]] eqn:E1;
    apply tensor_mul_heap in E1; [|by injection H as <- _].
  unfold bind at 1 in H.
  destruct (products pairs s1) as [s2 r2] eqn:E2. apply IH in E2.
  assert (s' = s2) as -> by (by destruct r2; injection H as <- _).
  by etrans.
Qed.

(** The multiplication of two existing tensors whose shapes cannot be
    broadcast together raises a RuntimeError and creates nothing. *)
Lemma tensor_mul_mismatch x g (s : state) tx tg :
  st_heap s !! x = Some tx → st_heap s !! g = Some tg →
  broadcast_shapes (shape tx) (shape tg) = None →
  tensor_mul emul grad_enabled x g s
  = (State (st_heap s) (st_trace s ++ [EvMul x g]),
     Raise (RuntimeError
              "The size of tensor a must match the size of tensor b")).
Proof.
  intros Hx Hg Hb. unfold tensor_mul, bind, emit, deref, raise. simpl.
  rewrite Hx. simpl. rewrite Hg. simpl.
  unfold tensor_product. by rewrite Hb.
Qed.

(** A multiplication of existing tensors raises nothing but that. *)
Lemma tensor_mul_raises_RuntimeError x g (s s' : state) e :
  is_Some (st_heap s !! x) → is_Some (st_heap s !! g) →
  tensor_mul emul grad_enabled x g s = (s', Raise e) →
  e = RuntimeError "The size of tensor a must match the size of tensor b".
Proof.
  intros [tx Hx] [tg Hg]. unfold tensor_mul, bind, emit, deref, alloc, raise.
  simpl. rewrite Hx. simpl. rewrite Hg. simpl.
  destruct (tensor_product _ _ _ _ _) as [[sh d]|]; [done|].
  by intros [= _ <-].
Qed.

(** A loop over existing tensors that meets a pair whose shapes cannot be
    broadcast together raises a RuntimeError. *)
Lemma products_mismatch pairs (s : state) i x g tx tg :
  Forall (λ p, is_Some (st_heap s !! p.1) ∧ is_Some (st_heap s !! p.2)) pairs →
  pairs !! i = Some (x, g) →
  st_heap s !! x = Some tx → st_heap s !! g = Some tg →
  broadcast_shapes (shape tx) (shape tg) = None →
  ∃ s', products pairs s
        = (s', Raise (RuntimeError
                        "The size of tensor a must match the size of tensor b")).
Proof.
  revert s i. induction pairs as [|[x0 g0] pairs IH]; intros s i Hv Hi Hx Hg Hb;
    [done|].
  apply Forall_cons in Hv as [[Hx0 Hg0] Hv]. simpl in Hx0, Hg0.
  simpl. unfold bind at 1.
  destruct (tensor_mul emul grad_enabled x0 g0 s) as [s1 [a|e]] eqn:E1.
  - destruct i as [|i].
    { injection Hi as -> ->.
      by rewrite (tensor_mul_mismatch _ _ _ tx tg) in E1. }
    pose proof (tensor_mul_heap _ _ _ _ _ E1) as Hpre.
    destruct (IH s1 i) as [s' Hs']; try done.
    + eapply Forall_impl; [exact Hv|]. intros [x1 g1] [[t1 H1] [t2 H2]]. simpl in *.
      split; eexists; by eapply prefix_lookup_Some.
    + by eapply prefix_lookup_Some.
    + by eapply prefix_lookup_Some.
    + exists s'. unfold bind at 1. by rewrite Hs'.
  - apply tensor_mul_raises_RuntimeError in E1 as ->; eauto.
Qed.

(** A call whose gradient capability returned gradients and whose loop
    of products raised ends there. *)
Lemma attribute_products_raise (self : IXG) inputs target args (s s' : state)
    h2 gs e :
  let ins := inputs_list inputs in
  valid_refs (st_heap s) ins →
  gradient_func self (forward_func self) ins target args
    (force_on ins (st_heap s)) = (h2, Ok gs) →
  products (zip ins gs)
    (State h2 (st_trace s
       ++ [EvFormatInput inputs; EvApplyGradientRequirements ins;
           EvGradientFunc (forward_func self) ins target args
             (force_on ins (st_heap s))]))
  = (s', Raise e) →
  attribute emul grad_enabled self inputs target args s = (s', Raise e).
Proof.
  intros ins Hv Hg Hprod. destruct s as [h tr]. simpl in *. unfold attribute.
  unfold bind at 1. rewrite format_input_run. simpl. fold ins.
  unfold bind at 1, apply_gradient_requirements. unfold bind at 1.
  unfold emit at 1. simpl. rewrite require_each_run by done. simpl.
  unfold bind at 1, call_gradient_func. simpl. rewrite Hg.
  unfold bind at 1. rewrite <- !(assoc_L (++)). simpl.
  by rewrite Hprod.
Qed.

(** Whatever the outcome of a call, every tensor that existed before it
    still exists, with its shape and elements; a flag differs only on an
    input, and then it is on. *)
Lemma attribute_only_flags (self : IXG) inputs target args (s : state) :
  preserves_objects self →
  only_flags_forced (inputs_list inputs) (st_heap s)
    (st_heap (attribute emul grad_enabled self inputs target args s).1).
Proof.
  intros Hp. set (ins := inputs_list inputs). destruct s as [h tr].
  destruct (attribute _ _ _ _ _ _) as [s' r] eqn:H. simpl.
  unfold attribute in H.
  unfold bind at 1 in H. rewrite format_input_run in H. simpl in H. fold ins in H.
  unfold bind at 1, apply_gradient_requirements in H. unfold bind at 1 in H.
  unfold emit at 1 in H. simpl in H.
  destruct (require_each ins _) as [s2 [mask|e]] eqn:E2; last first.
  { injection H as <- _. by apply (require_each_heap ins) in E2. }
  pose proof (require_each_ok_inv _ _ _ _ E2) as Hv. simpl in Hv.
  rewrite require_each_run in E2 by done. injection E2 as <- <-. simpl in H.
  unfold bind at 1, call_gradient_func in H. simpl in H.
  destruct (gradient_func self _ _ _ _ _) as [h2 rg] eqn:Hg.
  pose proof (Hp _ _ _ _ _ _ _ Hg) as Hpre.
  assert (only_flags_forced ins h h2) as Hh2.
  { eapply only_flags_forced_trans; [apply only_flags_forced_force_on|].
    by apply only_flags_forced_prefix. }
  destruct rg as [gs|e]; [|by injection H as <- _].
  unfold bind at 1 in H.
  destruct (tuple_of _ (zip ins gs) _) as [s4 r4] eqn:E4.
  apply products_heap in E4 as Hpre4. simpl in Hpre4.
  destruct r4 as [attrs|e]; last first.
  { injection H as <- _. eapply only_flags_forced_trans; [exact Hh2|].
    by apply only_flags_forced_prefix. }
  unfold bind at 1, undo_gradient_requirements in H. unfold bind at 1 in H.
  unfold emit at 1 in H. simpl in H.
  rewrite restore_each_run in H; simpl; last first.
  { unfold valid_refs. apply Forall_forall. intros l Hl%list_elem_of_fmap.
    destruct Hl as ([l' m] & -> & Hin%elem_of_zip_l). simpl.
    unfold valid_refs in Hv. rewrite Forall_forall in Hv.
    specialize (Hv _ Hin). apply prefix_length in Hpre, Hpre4.
    rewrite force_on_length in Hpre. lia. }
  apply _format_attributions_trace in H as ->. simpl.
  intros l t Ht. exists t. split_and!; try done; [|by left].
  apply reset_off_force_on; [done|by etrans|done].
Qed.
End MoreFacts.

(** ** Further properties of [InputXGradient.attribute] *)

Section MoreProperties.
Context {elt Forward Target Args : Type}.
Variable emul : elt → elt → elt.
Variable grad_enabled : bool.

Local Abbreviation state := (state elt Forward Target Args).
Local Abbreviation IXG := (InputXGradient elt Forward Target Args).

(** X1.  On the empty tuple the gradient capability is still called,
    once, on the caller's heap and with no input.  Whatever gradients it
    returns, nothing is multiplied and the empty tuple is returned; what
    it raises is raised. *)
Theorem attribute_of_empty_tuple (self : IXG) target args (s : state) :
  attribute emul grad_enabled self (PyTuple []) target args s
  = let '(h2, r) :=
      gradient_func self (forward_func self) [] target args (st_heap s) in
    let called :=
      st_trace s
        ++ [EvFormatInput (PyTuple []); EvApplyGradientRequirements [];
            EvGradientFunc (forward_func self) [] target args (st_heap s)] in
    match r with
    | Ok _ =>
        (State h2 (called ++ [EvUndoGradientRequirements [] [];
                              EvFormatAttributions true []]),
         Ok (ResTuple []))
    | Raise e => (State h2 called, Raise e)
    end.
Proof.
  destruct s as [h tr]. unfold attribute, bind. simpl.
  unfold call_gradient_func. simpl.
  destruct (gradient_func self _ _ _ _ _) as [h2 [gs|e]]; simpl;
    unfold _format_attributions, bind, emit, ret; simpl;
    by rewrite <- !(assoc_L (++)).
Qed.

(** X2.  Gradients beyond the number of inputs are never looked at: a
    capability that returns at least one gradient per input can return
    any references after them, to tensors of any shape or to nothing,
    and the call is the same, state and outcome. *)
Theorem attribute_ignores_surplus_gradients
    (self : IXG) surplus inputs target args (s : state) :
  (∀ h2 gs,
     gradient_func self (forward_func self) (inputs_list inputs) target args
       (force_on (inputs_list inputs) (st_heap s)) = (h2, Ok gs) →
     length (inputs_list inputs) ≤ length gs) →
  attribute emul grad_enabled (with_surplus surplus self) inputs target args s
  = attribute emul grad_enabled self inputs target args s.
Proof.
  intros Hlen. unfold attribute.
  apply bind_congr. intros ins s1 H1.
  rewrite format_input_run in H1. injection H1 as <- <-.
  apply bind_congr. intros mask s2 H2.
  apply apply_gradient_requirements_ok_inv in H2 as [Hv Hh]. simpl in Hh.
  rewrite !bind_call_gradient_func. simpl. rewrite Hh.
  destruct (gradient_func self _ _ _ _ _) as [h2 [gs|e]] eqn:Hg; simpl;
    [|done].
  specialize (Hlen _ _ eq_refl).
  replace (zip (inputs_list inputs) (gs ++ surplus))
    with (zip (inputs_list inputs) gs); [done|].
  rewrite zip_with_app_r, take_ge, drop_ge by done.
  by rewrite app_nil_r.
Qed.

(** X3.  Products are made before the flags are restored.  When the
    gradient capability returns existing tensors and the shapes of some
    input and of its gradient cannot be broadcast together, the call
    raises a RuntimeError without restoring: every input tensor is left
    with its flag on. *)
Theorem attribute_leaves_flags_on_when_shapes_mismatch
    (self : IXG) inputs target args (s : state) h2 gs i x g tx tg :
  preserves_objects self →
  valid_refs (st_heap s) (inputs_list inputs) →
  gradient_func self (forward_func self) (inputs_list inputs) target args
    (force_on (inputs_list inputs) (st_heap s)) = (h2, Ok gs) →
  valid_refs h2 gs →
  inputs_list inputs !! i = Some x → gs !! i = Some g →
  h2 !! x = Some tx → h2 !! g = Some tg →
  broadcast_shapes (shape tx) (shape tg) = None →
  ∃ s',
    attribute emul grad_enabled self inputs target args s
    = (s', Raise (RuntimeError
                    "The size of tensor a must match the size of tensor b"))
    ∧ ∀ l, l ∈ inputs_list inputs → flag (st_heap s') l = Some true.
Proof.
  intros Hp Hv Hg Hvg Hx Hgi Htx Htg Hb. set (ins := inputs_list inputs) in *.
  pose proof (Hp _ _ _ _ _ _ _ Hg) as Hpre.
  set (s3 := State h2 (st_trace s
       ++ [EvFormatInput inputs; EvApplyGradientRequirements ins;
           EvGradientFunc (forward_func self) ins target args
             (force_on ins (st_heap s))]) : state).
  destruct (products_mismatch emul grad_enabled (zip ins gs) s3 i x g tx tg)
    as [s' Hs']; try done.
  - apply Forall_forall. intros [x1 g1] Hin. simpl.
    pose proof (elem_of_zip_l _ _ _ _ Hin) as H1.
    pose proof (elem_of_zip_r _ _ _ _ Hin) as H2.
    unfold valid_refs in Hv, Hvg. rewrite Forall_forall in Hv, Hvg.
    split; apply lookup_lt_is_Some_2; [|by apply Hvg].
    apply prefix_length in Hpre. rewrite force_on_length in Hpre.
    specialize (Hv _ H1). lia.
  - apply lookup_zip_with_Some. by exists x, g.
  - exists s'. split; [by apply attribute_products_raise with h2 gs|].
    intros l Hl. apply products_heap in Hs'. simpl in Hs'.
    unfold valid_refs in Hv. rewrite Forall_forall in Hv.
    destruct (lookup_lt_is_Some_2 _ _ (Hv l Hl)) as [t Ht].
    assert (st_heap s' !! l = Some (with_requires_grad true t)) as Hl'.
    { apply (prefix_lookup_Some (force_on ins (st_heap s)));
        [|by etrans; [exact Hpre|]].
      rewrite force_on_lookup, Ht. by rewrite decide_True. }
    unfold flag. by rewrite Hl'.
Qed.

(** X4.  Products are made while the inputs are tracked: after a normal
    return, the gradient capability having left the objects alone, every
    attribution returned is tracked for differentiation exactly when
    torch's grad mode was on at the call (the default; it is off inside
    [torch.no_grad()]), whatever the flag of its input before the call
    and after. *)
Theorem attribute_returns_tracked_tensors
    (self : IXG) inputs target args (s s' : state) res :
  preserves_objects self →
  attribute emul grad_enabled self inputs target args s = (s', Ok res) →
  ∀ a, a ∈ result_list res → flag (st_heap s') a = Some grad_enabled.
Proof.
  intros Hp H a [i Hi]%list_elem_of_lookup_1.
  destruct (attribute_ok_inv emul grad_enabled _ _ _ _ _ _ _ H)
    as (h2 & gs & news & Hv & Hg & HF & -> & _ & Hres & _).
  set (ins := inputs_list inputs) in *.
  rewrite Hres in Hi. apply lookup_seq in Hi as [-> Hi].
  apply lookup_lt_is_Some_2 in Hi as [[x g] Hxg].
  destruct (Forall2_lookup_l _ _ _ _ _ HF Hxg) as (t & Ht & Hprod).
  apply lookup_zip_with_Some in Hxg as (x' & g' & [= <- <-] & Hx & _).
  pose proof (Hp _ _ _ _ _ _ _ Hg) as Hpre.
  assert (x ∈ ins) as Hin by (by eapply list_elem_of_lookup_2).
  unfold valid_refs in Hv. rewrite Forall_forall in Hv.
  pose proof (Hv x Hin) as Hlt.
  destruct (lookup_lt_is_Some_2 _ _ Hlt) as [t0 Ht0].
  assert ((h2 ++ news) !! x = Some (with_requires_grad true t0)) as Hx2.
  { apply lookup_app_l_Some. eapply prefix_lookup_Some; [|done].
    rewrite force_on_lookup, Ht0. by rewrite decide_True. }
  unfold product_at in Hprod. simpl in Hprod. rewrite Hx2 in Hprod.
  simpl in Hprod.
  destruct ((h2 ++ news) !! g) as [tg|]; [|done]. simpl in Hprod.
  destruct (tensor_product _ _ _ _ _) as [[sh d]|]; [|done].
  injection Hprod as <-.
  unfold flag. rewrite reset_off_lookup.
  rewrite lookup_app_r by lia.
  replace (length h2 + i - length h2) with i by lia. rewrite Ht.
  rewrite decide_False; [simpl; by rewrite andb_true_r|].
  intros Hin'%elem_of_zip_l.
  specialize (Hv _ Hin'). apply prefix_length in Hpre.
  rewrite force_on_length in Hpre. lia.
Qed.

(** X5.  The call itself makes no use of [target] and of
    [additional_forward_args]: two calls on the same inputs for which the
    gradient capability gives the same answer end on the same heap with
    the same outcome. *)
Theorem attribute_uses_target_only_through_capability
    (self : IXG) inputs target1 args1 target2 args2 (s : state) :
  gradient_func self (forward_func self) (inputs_list inputs) target1 args1
    (force_on (inputs_list inputs) (st_heap s))
  = gradient_func self (forward_func self) (inputs_list inputs) target2 args2
      (force_on (inputs_list inputs) (st_heap s)) →
  same_run (attribute emul grad_enabled self inputs target1 args1 s)
           (attribute emul grad_enabled self inputs target2 args2 s).
Proof.
  intros Hsame. unfold attribute.
  apply bind_same_run. intros ins s1 H1.
  rewrite format_input_run in H1. injection H1 as <- <-.
  apply bind_same_run. intros mask s2 H2.
  apply apply_gradient_requirements_ok_inv in H2 as [Hv Hh]. simpl in Hh.
  rewrite !bind_call_gradient_func. rewrite Hh, Hsame.
  destruct (gradient_func self _ _ target2 args2 _) as [h2 [gs|e]]; simpl;
    [|by split].
  by apply ignores_trace_after_gradients.
Qed.

(** X6.  Whatever the outcome of a call, normal or not, the gradient
    capability having left the objects alone: every tensor that existed
    before the call still exists, with the same shape and the same
    elements; its flag is the one it had, or else it is an input and its
    flag is on. *)
Theorem attribute_changes_only_input_flags
    (self : IXG) inputs target args (s : state) :
  preserves_objects self →
  ∀ l t, st_heap s !! l = Some t →
    ∃ t', st_heap (attribute emul grad_enabled self inputs target args s).1 !! l = Some t'
          ∧ shape t' = shape t ∧ elems t' = elems t
          ∧ (requires_grad t' = requires_grad t
             ∨ l ∈ inputs_list inputs ∧ requires_grad t' = true).
Proof. intros Hp. by apply attribute_only_flags. Qed.

(** X7.  When every input is tracked before the call, the call leaves
    every existing tensor exactly as it was whatever its outcome, the
    gradient capability having left the objects alone: a failure leaks
    nothing. *)
Theorem attribute_leaves_tracked_inputs_alone
    (self : IXG) inputs target args (s : state) :
  preserves_objects self →
  (∀ l, l ∈ inputs_list inputs → flag (st_heap s) l = Some true) →
  ∀ l t, st_heap s !! l = Some t →
    st_heap (attribute emul grad_enabled self inputs target args s).1 !! l = Some t.
Proof.
  intros Hp Htracked l t Ht.
  destruct (attribute_only_flags emul grad_enabled self inputs target args s Hp l t Ht)
    as (t' & Ht' & Hs & He & Hf).
  rewrite Ht'. f_equal. destruct t, t'. simpl in *. subst.
  destruct Hf as [->|[Hin ->]]; [done|].
  specialize (Htracked l Hin). unfold flag in Htracked.
  rewrite Ht in Htracked. by injection Htracked as ->.
Qed.

(** X8.  A tensor and the one-element tuple holding it are treated
    alike up to the last step: the two calls end on the same heap, and
    the outcome on the tensor is the outcome on the tuple unwrapped, an
    AssertionError when the tuple returned does not hold exactly one
    attribution. *)
Theorem attribute_single_tensor_as_one_tuple
    (self : IXG) x target args (s : state) :
  st_heap (attribute emul grad_enabled self (PyTensor x) target args s).1
  = st_heap (attribute emul grad_enabled self (PyTuple [x]) target args s).1
  ∧ (attribute emul grad_enabled self (PyTensor x) target args s).2
    = match (attribute emul grad_enabled self (PyTuple [x]) target args s).2 with
      | Ok (ResTuple [a]) => Ok (ResTensor a)
      | Ok _ =>
          Raise (AssertionError
                   "The input is a single tensor however the attributions aren't")
      | Raise e => Raise e
      end.
Proof.
  set (R := λ r1 r2 : state * outcome pyresult,
         st_heap r1.1 = st_heap r2.1
         ∧ r1.2 = match r2.2 with
                  | Ok (ResTuple [a]) => Ok (ResTensor a)
                  | Ok _ =>
                      Raise (AssertionError
                        "The input is a single tensor however the attributions aren't")
                  | Raise e => Raise e
                  end).
  change (R (attribute emul grad_enabled self (PyTensor x) target args s)
            (attribute emul grad_enabled self (PyTuple [x]) target args s)).
  assert (∀ e s1 s2, st_heap s1 = st_heap s2 →
                     R (s1, Raise e) (s2, Raise e)) as HR by done.
  unfold attribute. rewrite !bind_format_input. simpl.
  apply bind_related;
    [apply ignores_trace_apply_gradient_requirements|done| |done].
  intros mask s2 s2' Hh2.
  apply bind_related; [apply ignores_trace_call_gradient_func|done| |done].
  intros gs s3 s3' Hh3.
  apply bind_related; [apply ignores_trace_products|done| |done].
  intros attrs s4 s4' Hh4.
  apply bind_related;
    [apply ignores_trace_undo_gradient_requirements|done| |done].
  intros [] s5 s5' Hh5.
  unfold R, _format_attributions, bind, emit, ret, raise. simpl.
  by destruct attrs as [|a [|]].
Qed.

(** X9.  The flags are restored before the result is denormalised.  A
    call on a single tensor for which the gradient capability, having
    left the objects alone, returns no gradient raises an AssertionError
    and leaves every existing tensor exactly as it was. *)
Theorem attribute_restores_flags_before_denormalising
    (self : IXG) x target args (s : state) h2 :
  preserves_objects self →
  valid_refs (st_heap s) [x] →
  gradient_func self (forward_func self) [x] target args
    (force_on [x] (st_heap s)) = (h2, Ok []) →
  ∃ s',
    attribute emul grad_enabled self (PyTensor x) target args s
    = (s', Raise (AssertionError
                    "The input is a single tensor however the attributions aren't"))
    ∧ ∀ l t, st_heap s !! l = Some t → st_heap s' !! l = Some t.
Proof.
  intros Hp Hv Hg. pose proof (Hp _ _ _ _ _ _ _ Hg) as Hpre.
  destruct (attribute_run emul grad_enabled self (PyTensor x) target args s h2 [] [] Hv Hg)
    as (r & Hrun & Hr); [|done|].
  { unfold valid_refs in *. eapply Forall_impl; [exact Hv|]. simpl.
    intros l Hl. apply prefix_length in Hpre.
    rewrite force_on_length in Hpre. lia. }
  specialize (Hr s). simpl in Hr. subst r.
  eexists. split; [exact Hrun|]. intros l t Ht.
  apply (reset_off_force_on [x] (st_heap s) (h2 ++ []) l t); [done| |done].
  by rewrite app_nil_r.
Qed.
End MoreProperties.

(** ** The further properties on concrete calls *)

Section MoreConcrete.
Import IEEE754 Float32 Examples MoreExamples.

Local Abbreviation mismatch :=
  (RuntimeError "The size of tensor a must match the size of tensor b").
Local Abbreviation not_single :=
  (AssertionError "The input is a single tensor however the attributions aren't").

(** A surplus reference to nothing changes nothing. *)
Lemma attribute_ignores_surplus_gradients_witness :
  attribute mul true surplus_engine (PyTensor 0) (Some 4) [7%Z] (start [x123])
  = sum_call.
Proof.
  apply (attribute_ignores_surplus_gradients mul true sum_engine [99] (PyTensor 0)
           (Some 4) [7%Z] (start [x123])).
  intros h2 gs [= <- <-]. simpl. lia.
Defined.

(** Three elements against a gradient of two: the call raises and the
    input, untracked before, is left tracked. *)
Lemma attribute_leaves_flags_on_when_shapes_mismatch_witness :
  ∃ s', misshapen_call = (s', Raise mismatch)
        ∧ ∀ l, l ∈ [0] → flag (st_heap s') l = Some true.
Proof.
  apply (attribute_leaves_flags_on_when_shapes_mismatch mul true misshapen_engine
           (PyTensor 0) None [] (start [x123])
           [with_requires_grad true x123; y45] [1] 0 0 1
           (with_requires_grad true x123) y45).
  - apply constant_gradients_preserves_objects.
  - repeat constructor.
  - reflexivity.
  - repeat constructor.
  - reflexivity.
  - reflexivity.
  - reflexivity.
  - reflexivity.
  - reflexivity.
Defined.

(** The attribution of the documentation's example is tracked, its
    input is not. *)
Lemma attribute_returns_tracked_tensors_witness :
  flag (st_heap sum_call.1) 2 = Some true.
Proof.
  apply (attribute_returns_tracked_tensors mul true sum_engine (PyTensor 0)
           (Some 4) [7%Z] (start [x123]) sum_call.1 (ResTensor 2)).
  - apply constant_gradients_preserves_objects.
  - by vm_compute.
  - by left.
Defined.

(** Inside [torch.no_grad()] the attribution is not tracked. *)
Example sum_call_without_grad_mode :
  flag (st_heap (attribute mul false sum_engine (PyTensor 0) (Some 4) [7%Z]
                   (start [x123])).1) 2 = Some false.
Proof. by vm_compute. Qed.

Lemma attribute_uses_target_only_through_capability_witness :
  same_run sum_call
    (attribute mul true sum_engine (PyTensor 0) None [] (start [x123])).
Proof.
  apply (attribute_uses_target_only_through_capability mul true sum_engine
           (PyTensor 0) (Some 4) [7%Z] None [] (start [x123])).
  reflexivity.
Defined.

(** The capability fails: the input keeps its shape and elements. *)
Lemma attribute_changes_only_input_flags_witness :
  ∃ t', st_heap failing_call.1 !! 0 = Some t'
        ∧ shape t' = shape x123 ∧ elems t' = elems x123
        ∧ (requires_grad t' = requires_grad x123
           ∨ 0 ∈ [0] ∧ requires_grad t' = true).
Proof.
  apply (attribute_changes_only_input_flags mul true failing_engine (PyTensor 0)
           None [] (start [x123])).
  - apply raising_gradients_preserves_objects.
  - reflexivity.
Defined.

(** The capability fails on a tracked input: the input is as it was. *)
Lemma attribute_leaves_tracked_inputs_alone_witness :
  st_heap tracked_failing_call.1 !! 0 = Some y45.
Proof.
  apply (attribute_leaves_tracked_inputs_alone mul true failing_engine (PyTensor 0)
           None [] (start [y45])).
  - apply raising_gradients_preserves_objects.
  - intros l Hl. apply list_elem_of_singleton in Hl. by subst.
  - reflexivity.
Defined.

(** The documentation's example on a tensor and on a one-element tuple. *)
Example sum_call_as_one_tuple :
  sum_call.2 = Ok (ResTensor 2) ∧ sum_tuple_call.2 = Ok (ResTuple [2])
  ∧ st_heap sum_call.1 = st_heap sum_tuple_call.1.
Proof. by vm_compute. Qed.

(** No gradient for a single tensor: the call raises, the input is as
    it was. *)
Lemma attribute_restores_flags_before_denormalising_witness :
  ∃ s', empty_call = (s', Raise not_single)
        ∧ ∀ l t, [x123] !! l = Some t → st_heap s' !! l = Some t.
Proof.
  apply (attribute_restores_flags_before_denormalising mul true empty_engine 0
           None [] (start [x123]) [with_requires_grad true x123]).
  - apply constant_gradients_preserves_objects.
  - repeat constructor.
  - reflexivity.
Defined.
End MoreConcrete.
